(** * vibecraft: session telemetry and hierarchy aggregation

  A shallow embedding of three server modules,

  - [server/MetricsCollector.ts]  (module [Metrics]),
  - [server/AgentHierarchy.ts]    (module [Hierarchy]),
  - [server/TmuxDiscovery.ts]     (module [Discovery]),

  and of the duration and error-bar computations of the client's metrics
  panel (module [MetricsPanel]), together with the properties stated about
  them.

  Conventions of the embedding.

  - A JavaScript [Map<string, V>] is a [gmap string V].  Iteration order of
    a [Map] is only observable through [getRoots] and [getHierarchy], which
    are not modelled; the children index, whose order [getChildren]
    exposes, is kept as an insertion-ordered list without duplicates.
  - JavaScript numbers are idealised: integers (token counts, durations in
    milliseconds, timestamps, process ids) are [Z], and the results of a
    division ([avg], [errorRate], [cost]) are exact rationals [Q].  [NaN],
    infinities and rounding are outside the model.
  - [Date.now()] is an explicit argument of every operation that reads the
    clock.
  - Loops that the source writes as [while] are functions with a fuel
    argument that return [None] when the fuel runs out; "the call returns
    [r]" is "some fuel yields [Some r]", and "the call does not return" is
    "every fuel yields [None]". *)

From Stdlib Require Import ZArith QArith Qround Lia Lqa.
From stdpp Require Import gmap strings list fin_maps sorting pretty.

Local Open Scope Z_scope.

(** Truthiness of a JavaScript string: only the empty string is falsy. *)
Definition truthy_str (s : string) : bool :=
match s with EmptyString => false | _ => true end.

(** Truthiness of an optional number ([undefined] and [0] are falsy). *)
Definition truthy_num (o : option Z) : bool :=
match o with Some n => negb (n =? 0) | None => false end.

(* ===================================================================== *)
(** * MetricsCollector *)
(* ===================================================================== *)

Module Metrics.

(** [interface ToolUseData] *)
Record ToolUseData := mkToolUse {
  tool : string;
  duration : Z;
  success : bool;
  inputTokens : option Z;
  outputTokens : option Z
}.

(** [interface SessionMetrics].  The keys of [toolCounts] are taken to be
    names that the object does not inherit from [Object.prototype]. *)
Record SessionMetrics := mkSession {
  s_inputTokens : Z;
  s_outputTokens : Z;
  s_durations : list Z;
  s_errorCount : Z;
  s_totalCount : Z;
  s_toolCounts : gmap string Z;
  s_startTime : Z
}.

(** [MetricsData], from [shared/types.ts]. *)
Record Tokens := mkTokens { input : Z; output : Z; total : Z; cost : Q }.
Record Latency := mkLatency { avg : Q; p95 : Z; p99 : Z }.
Record MetricsData := mkMetrics {
  tokens : Tokens;
  latency : Latency;
  errorRate : Q;
  toolCounts : gmap string Z;
  m_duration : Z
}.

Definition INPUT_TOKEN_PRICE : Q := 3 / 1000000.
Definition OUTPUT_TOKEN_PRICE : Q := 15 / 1000000.

(** [values.sort((a, b) => a - b)] *)
Definition sort_asc (values : list Z) : list Z := merge_sort Z.le values.

(** [Math.ceil((p / 100) * n)] *)
Definition rank_of (p : Z) (n : nat) : Z :=
  Qceiling ((inject_Z p / 100) * inject_Z (Z.of_nat n)).

(** [Math.min(Math.max(rank - 1, 0), n - 1)] *)
Definition index_of (p : Z) (n : nat) : Z :=
  Z.min (Z.max (rank_of p n - 1) 0) (Z.of_nat n - 1).

(** [function percentile(values, p)] *)
Definition percentile (values : list Z) (p : Z) : Z :=
  match values with
  | [] => 0
  | _ =>
      let sorted := sort_asc values in
      nth (Z.to_nat (index_of p (length sorted))) sorted 0
  end.

(** The state of a collector: [private sessions = new Map()]. *)
Definition fresh_session (now : Z) : SessionMetrics :=
  mkSession 0 0 [] 0 0 ∅ now.

(** The body of [recordToolUse] after the session object was found or
    created: the in-place updates of that object. *)
Definition record_into (data : ToolUseData) (s : SessionMetrics) : SessionMetrics :=
  let inp := if truthy_num (inputTokens data)
             then s_inputTokens s + default 0 (inputTokens data)
             else s_inputTokens s in
  let out := if truthy_num (outputTokens data)
             then s_outputTokens s + default 0 (outputTokens data)
             else s_outputTokens s in
  let old := match s_toolCounts s !! tool data with
             | Some n => if n =? 0 then 0 else n
             | None => 0
             end in
  mkSession inp out
            (s_durations s ++ [duration data])
            (if success data then s_errorCount s else s_errorCount s + 1)
            (s_totalCount s + 1)
            (<[tool data := old + 1]> (s_toolCounts s))
            (s_startTime s).

(** [recordToolUse(sessionId, data)]; [now] is what [Date.now()] returns
    should the session have to be created. *)
Definition recordToolUse (now : Z) (sessionId : string) (data : ToolUseData)
    (sessions : gmap string SessionMetrics) : gmap string SessionMetrics :=
  let session := match sessions !! sessionId with
                 | Some s => s
                 | None => fresh_session now
                 end in
  <[sessionId := record_into data session]> sessions.

Definition sumZ (l : list Z) : Z := foldl Z.add 0 l.

Definition zero_metrics : MetricsData :=
  mkMetrics (mkTokens 0 0 0 0) (mkLatency 0 0 0) 0 ∅ 0.

Definition session_metrics (now : Z) (session : SessionMetrics) : MetricsData :=
  let totalTokens := s_inputTokens session + s_outputTokens session in
  let cost := (inject_Z (s_inputTokens session) * INPUT_TOKEN_PRICE
               + inject_Z (s_outputTokens session) * OUTPUT_TOKEN_PRICE)%Q in
  let durations := s_durations session in
  let avg := if decide (0 < length durations)%nat
             then (inject_Z (sumZ durations)
                   / inject_Z (Z.of_nat (length durations)))%Q
             else 0%Q in
  let errorRate := if decide (0 < s_totalCount session)
                   then (inject_Z (s_errorCount session)
                         / inject_Z (s_totalCount session) * 100)%Q
                   else 0%Q in
  mkMetrics (mkTokens (s_inputTokens session) (s_outputTokens session)
                       totalTokens cost)
            (mkLatency avg (percentile durations 95) (percentile durations 99))
            errorRate
            (s_toolCounts session)
            (now - s_startTime session).

(** [getMetrics(sessionId)] read at clock value [now]. *)
Definition getMetrics (now : Z) (sessions : gmap string SessionMetrics)
    (sessionId : string) : MetricsData :=
  match sessions !! sessionId with
  | None => zero_metrics
  | Some session => session_metrics now session
  end.

(** [getAllMetrics()].  The result is a plain object filled by
    [result[sessionId] = ...]; assigning to the key ["__proto__"] sets the
    prototype of the object and creates no own property, so that key never
    becomes a member. *)
Definition getAllMetrics (now : Z) (sessions : gmap string SessionMetrics)
    : gmap string MetricsData :=
  session_metrics now <$> filter (λ kv, kv.1 ≠ "__proto__"%string) sessions.

(** [clearSession(sessionId)] and [clearAll()] *)
Definition clearSession (sessionId : string)
    (sessions : gmap string SessionMetrics) : gmap string SessionMetrics :=
  delete sessionId sessions.

Definition clearAll (sessions : gmap string SessionMetrics)
    : gmap string SessionMetrics := ∅.

(** The public mutators, as a command language, and their execution. *)
Inductive op :=
| RecordToolUse (now : Z) (sessionId : string) (data : ToolUseData)
| ClearSession (sessionId : string)
| ClearAll.

Definition exec (sessions : gmap string SessionMetrics) (o : op)
    : gmap string SessionMetrics :=
  match o with
  | RecordToolUse now sid data => recordToolUse now sid data sessions
  | ClearSession sid => clearSession sid sessions
  | ClearAll => clearAll sessions
  end.

Definition run (ops : list op) : gmap string SessionMetrics :=
  foldl exec ∅ ops.

(** All [recordToolUse] calls of a list, in order; each comes with the clock
    value it would read. *)
Definition record_all (events : list (Z * string * ToolUseData))
    (sessions : gmap string SessionMetrics) : gmap string SessionMetrics :=
  foldl (λ acc e, recordToolUse e.1.1 e.1.2 e.2 acc) sessions events.

(** The calls of [events] that name the session [sid]. *)
Definition calls_of (sid : string) (events : list (Z * string * ToolUseData))
    : list ToolUseData :=
  snd <$> filter (λ e, e.1.2 = sid) events.

(** The tokens a call supplies: an absent value contributes nothing. *)
Definition supplied (o : option Z) : Z := default 0 o.

(** Nearest-rank percentile in the words of the specification, for
    comparison with [percentile]: over an ascending sample,
    rank = ceil(p/100 × count), index = clamp(rank − 1, 0, count − 1). *)
Definition ceil_div (a b : Z) : Z := - ((- a) `div` b).

Definition clamp (x lo hi : Z) : Z := Z.max lo (Z.min x hi).

Definition nearest_rank (sorted : list Z) (p : Z) : Z :=
  let count := Z.of_nat (length sorted) in
  let rank := ceil_div (p * count) 100 in
  nth (Z.to_nat (clamp (rank - 1) 0 (count - 1))) sorted 0.

(** The failures among some calls. *)
Definition failures (calls : list ToolUseData) : list ToolUseData :=
  filter (λ d, success d = false) calls.

(** The aggregate of a session, in terms of the calls made on it since the
    collector was created. *)
Definition aggregates (calls : list ToolUseData) (s : SessionMetrics) : Prop :=
  calls ≠ []
  ∧ s_inputTokens s = sumZ (supplied ∘ inputTokens <$> calls)
  ∧ s_outputTokens s = sumZ (supplied ∘ outputTokens <$> calls)
  ∧ s_durations s = duration <$> calls
  ∧ s_errorCount s = Z.of_nat (length (failures calls))
  ∧ s_totalCount s = Z.of_nat (length calls).

(** The clock value read by the first call of [events] on the session
    [sid], if there is one. *)
Definition first_clock (sid : string) (events : list (Z * string * ToolUseData))
    : option Z :=
  (λ e, e.1.1) <$> head (filter (λ e, e.1.2 = sid) events).

(** How many of some calls used the tool [name]. *)
Definition tool_uses (name : string) (calls : list ToolUseData) : Z :=
  Z.of_nat (length (filter (λ d, tool d = name) calls)).

(** The property names that every object inherits from [Object.prototype]:
    reading one of them from [toolCounts] does not yield [undefined]. *)
Definition object_prototype_names : list string :=
  ["constructor"; "__proto__"; "hasOwnProperty"; "isPrototypeOf";
   "propertyIsEnumerable"; "toLocaleString"; "toString"; "valueOf";
   "__defineGetter__"; "__defineSetter__"; "__lookupGetter__";
   "__lookupSetter__"]%string.

End Metrics.

(* ===================================================================== *)
(** * AgentHierarchy *)
(* ===================================================================== *)

Module Hierarchy.

(** [AgentNode], from [shared/types.ts]. *)
Record AgentNode := mkNode {
  sessionId : string;
  parentId : option string;
  toolUseId : option string;
  description : option string;
  subagentType : option string;
  spawnedAt : Z;
  completedAt : option Z
}.

#[global] Instance AgentNode_eq_dec : EqDecision AgentNode.
Proof. solve_decision. Defined.

(** The [options] argument of [addChild]. *)
Record SpawnOptions := mkOptions {
  o_toolUseId : string;
  o_description : option string;
  o_subagentType : option string
}.

(** The two private maps of the class.  A [Set<string>] of children is an
    insertion-ordered list without duplicates. *)
Record t := mkH {
  nodes : gmap string AgentNode;
  childrenMap : gmap string (list string)
}.

Definition empty : t := mkH ∅ ∅.

(** [Set.prototype.add] and [Set.prototype.delete] *)
Definition set_add (x : string) (s : list string) : list string :=
  if decide (x ∈ s) then s else s ++ [x].

Definition set_delete (x : string) (s : list string) : list string :=
  filter (λ y, y ≠ x) s.

(** [has(sessionId)] *)
Definition has (h : t) (sessionId : string) : bool :=
  bool_decide (is_Some (nodes h !! sessionId)).

(** [getNode(sessionId)] *)
Definition getNode (h : t) (sessionId : string) : option AgentNode :=
  nodes h !! sessionId.

(** [addRoot(sessionId)] *)
Definition addRoot (now : Z) (sessionId : string) (h : t) : t :=
  if has h sessionId then h
  else mkH (<[sessionId := mkNode sessionId None None None None now None]> (nodes h))
           (childrenMap h).

(** [addChild(parentId, childId, options)].  [nowRoot] is the clock value
    read when the parent has to be created, [now] the one read for the
    child. *)
Definition addChild (nowRoot now : Z) (parentId childId : string)
    (options : SpawnOptions) (h : t) : t :=
  let h1 := if has h parentId then h else addRoot nowRoot parentId h in
  let child := mkNode childId (Some parentId) (Some (o_toolUseId options))
                      (o_description options) (o_subagentType options)
                      now None in
  let nodes2 := <[childId := child]> (nodes h1) in
  let cm2 := match childrenMap h1 !! parentId with
             | Some _ => childrenMap h1
             | None => <[parentId := []]> (childrenMap h1)
             end in
  mkH nodes2 (alter (set_add childId) parentId cm2).

(** [markCompleted(sessionId)] *)
Definition markCompleted (now : Z) (sessionId : string) (h : t) : t :=
  mkH (alter (λ n, mkNode (Hierarchy.sessionId n) (parentId n) (toolUseId n)
                          (description n) (subagentType n) (spawnedAt n)
                          (Some now))
             sessionId (nodes h))
      (childrenMap h).

(** The test [current?.parentId] of the source: the parent id when it is
    neither [null] nor the empty string. *)
Definition truthy_parent (n : AgentNode) : option string :=
  match parentId n with
  | Some p => if truthy_str p then Some p else None
  | None => None
  end.

(** [getParent(sessionId)] *)
Definition getParent (h : t) (sessionId : string) : option AgentNode :=
  match nodes h !! sessionId with
  | Some node =>
      match truthy_parent node with
      | Some p => nodes h !! p
      | None => None
      end
  | None => None
  end.

(** [getChildren(sessionId)] *)
Definition getChildren (h : t) (sessionId : string) : list AgentNode :=
  match childrenMap h !! sessionId with
  | None => []
  | Some childIds => omap (λ id, nodes h !! id) childIds
  end.

(** One test of the condition of the [while] loop of [getAncestors],
    followed by its body: [inr] is the loop's exit with the final
    [ancestors], [inl] the variables after one more iteration. *)
Definition ancestors_step (h : t) (ancestors : list AgentNode)
    (current : option AgentNode)
    : list AgentNode * option AgentNode + list AgentNode :=
  match current with
  | None => inr ancestors
  | Some c =>
      match truthy_parent c with
      | None => inr ancestors
      | Some p =>
          match nodes h !! p with
          | None => inr ancestors
          | Some parent => inl (ancestors ++ [parent], Some parent)
          end
      end
  end.

Fixpoint ancestors_loop (fuel : nat) (h : t) (ancestors : list AgentNode)
    (current : option AgentNode) : option (list AgentNode) :=
  match fuel with
  | O => None
  | S fuel' =>
      match ancestors_step h ancestors current with
      | inr result => Some result
      | inl (ancestors', current') => ancestors_loop fuel' h ancestors' current'
      end
  end.

(** [getAncestors(sessionId)] *)
Definition getAncestors (fuel : nat) (h : t) (sessionId : string)
    : option (list AgentNode) :=
  ancestors_loop fuel h [] (nodes h !! sessionId).

(** [getDepth(sessionId)] *)
Definition getDepth (fuel : nat) (h : t) (sessionId : string) : option nat :=
  length <$> getAncestors fuel h sessionId.

(** The [while (queue.length > 0)] loop of [getDescendants]. *)
Fixpoint descendants_loop (fuel : nat) (h : t)
    (descendants queue : list AgentNode) : option (list AgentNode) :=
  match fuel with
  | O => None
  | S fuel' =>
      match queue with
      | [] => Some descendants
      | node :: rest =>
          descendants_loop fuel' h (descendants ++ [node])
                           (rest ++ getChildren h (sessionId node))
      end
  end.

(** [getDescendants(sessionId)] *)
Definition getDescendants (fuel : nat) (h : t) (sessionId : string)
    : option (list AgentNode) :=
  descendants_loop fuel h [] (getChildren h sessionId).

(** The three phases of [remove]. *)
Definition delete_node (h : t) (id : string) : t :=
  mkH (delete id (nodes h)) (delete id (childrenMap h)).

Definition unlink_from_parent (sessionId : string) (h : t) : t :=
  match nodes h !! sessionId with
  | Some node =>
      match truthy_parent node with
      | Some p => mkH (nodes h) (alter (set_delete sessionId) p (childrenMap h))
      | None => h
      end
  | None => h
  end.

(** [remove(sessionId)] *)
Definition remove (fuel : nat) (sessionId : string) (h : t) : option t :=
  match getDescendants fuel h sessionId with
  | None => None
  | Some descendants =>
      let h1 := foldl (λ acc d, delete_node acc (Hierarchy.sessionId d))
                      h descendants in
      let h2 := unlink_from_parent sessionId h1 in
      Some (delete_node h2 sessionId)
  end.

(** [clear()] *)
Definition clear (h : t) : t := empty.

(** States built by [addRoot] and [addChild] alone. *)
Inductive built : t → Prop :=
| built_empty : built empty
| built_addRoot now sid h :
    built h → built (addRoot now sid h)
| built_addChild nowRoot now p c o h :
    built h → built (addChild nowRoot now p c o h).

(** States reachable through the public mutators; a [remove] contributes a
    state only when it returns. *)
Inductive reachable : t → Prop :=
| reach_empty : reachable empty
| reach_addRoot now sid h :
    reachable h → reachable (addRoot now sid h)
| reach_addChild nowRoot now p c o h :
    reachable h → reachable (addChild nowRoot now p c o h)
| reach_markCompleted now sid h :
    reachable h → reachable (markCompleted now sid h)
| reach_remove fuel sid h h' :
    reachable h → remove fuel sid h = Some h' → reachable h'
| reach_clear h :
    reachable h → reachable (clear h).

(** The same, when every [addChild] names a child that has no node yet and
    that is not the parent itself: the build sequences in which "a child is
    only added once". *)
Inductive reachable_fresh : t → Prop :=
| rf_empty : reachable_fresh empty
| rf_addRoot now sid h :
    reachable_fresh h → reachable_fresh (addRoot now sid h)
| rf_addChild nowRoot now p c o h :
    reachable_fresh h → nodes h !! c = None → c ≠ p →
    reachable_fresh (addChild nowRoot now p c o h)
| rf_markCompleted now sid h :
    reachable_fresh h → reachable_fresh (markCompleted now sid h)
| rf_remove fuel sid h h' :
    reachable_fresh h → remove fuel sid h = Some h' → reachable_fresh h'
| rf_clear h :
    reachable_fresh h → reachable_fresh (clear h).

(** Options used in the examples. *)
Definition opts : SpawnOptions := mkOptions "toolu_1"%string None None.

(** The children index has no cycle through nodes that exist: some bounded
    rank grows along each of its edges. *)
Definition ranked (h : t) (rank : string → nat) (bound : nat) : Prop :=
  (∀ x, (rank x ≤ bound)%nat)
  ∧ ∀ p ids c, childrenMap h !! p = Some ids → c ∈ ids →
               is_Some (nodes h !! c) → (rank p < rank c)%nat.

(** Coherence of the two maps: a node is stored under its own id, only
    existing nodes have a children set, and a node with a parent id has that
    parent, whose children set lists it. *)
Record wf (h : t) : Prop := mkWf {
  wf_key : ∀ x n, nodes h !! x = Some n → sessionId n = x;
  wf_index : ∀ p ids, childrenMap h !! p = Some ids → is_Some (nodes h !! p);
  wf_parent : ∀ x n p, nodes h !! x = Some n → parentId n = Some p →
                is_Some (nodes h !! p)
                ∧ ∃ ids, childrenMap h !! p = Some ids ∧ x ∈ ids;
  wf_ranked : ∃ rank bound, ranked h rank bound
}.

(** The chain of parents that [getAncestors] follows from a node: nearest
    first, the node itself excluded, ended by a node without parent id or by
    a parent id that names no node. *)
Inductive ancestry (h : t) : AgentNode → list AgentNode → Prop :=
| ancestry_root c :
    truthy_parent c = None → ancestry h c []
| ancestry_broken c p :
    truthy_parent c = Some p → nodes h !! p = None → ancestry h c []
| ancestry_step c p parent rest :
    truthy_parent c = Some p → nodes h !! p = Some parent →
    ancestry h parent rest → ancestry h c (parent :: rest).

(** A bound on the number of nodes that [getDescendants] takes from its
    queue below the node [x], when no path of the children index below [x]
    is longer than [d]. *)
Fixpoint tsize (h : t) (d : nat) (x : string) : nat :=
  match d with
  | O => 1
  | S d' => S (sum_list (tsize h d' ∘ sessionId <$> getChildren h x))
  end.

(** The measure of a queue: the bounds of its nodes added up. *)
Definition weight (h : t) (rank : string → nat) (bound : nat)
    (queue : list AgentNode) : nat :=
  sum_list ((λ n, tsize h (bound - rank (sessionId n)) (sessionId n)) <$> queue).

(** States built by [addRoot] and [addChild] alone, every child being added
    once. *)
Inductive built_fresh : t → Prop :=
| bf_empty : built_fresh empty
| bf_addRoot now sid h :
    built_fresh h → built_fresh (addRoot now sid h)
| bf_addChild nowRoot now p c o h :
    built_fresh h → nodes h !! c = None → c ≠ p →
    built_fresh (addChild nowRoot now p c o h).

(** The three-generation tracker of the test suite. *)
Definition example_tree : t :=
  addChild 0 3 "parent" "child" opts
    (addChild 0 2 "grandparent" "parent" opts
       (addRoot 1 "grandparent" empty)).

(** A node with its completion time set. *)
Definition completed (now : Z) (n : AgentNode) : AgentNode :=
  mkNode (sessionId n) (parentId n) (toolUseId n) (description n)
         (subagentType n) (spawnedAt n) (Some now).

(** The part of the coherence that every reachable state has, cyclic ones
    included: a node is stored under its own id, and a node with a parent id
    has that parent, whose children set lists it. *)
Definition linked (h : t) : Prop :=
  (∀ x n, nodes h !! x = Some n → sessionId n = x)
  ∧ (∀ x n p, nodes h !! x = Some n → parentId n = Some p →
       is_Some (nodes h !! p)
       ∧ ∃ ids, childrenMap h !! p = Some ids ∧ x ∈ ids).

(** The reachable states in which, besides, no [addChild] names the empty
    string as parent id. *)
Inductive reachable_clean : t → Prop :=
| rc_empty : reachable_clean empty
| rc_addRoot now sid h :
    reachable_clean h → reachable_clean (addRoot now sid h)
| rc_addChild nowRoot now p c o h :
    reachable_clean h → truthy_str p = true → nodes h !! c = None → c ≠ p →
    reachable_clean (addChild nowRoot now p c o h)
| rc_markCompleted now sid h :
    reachable_clean h → reachable_clean (markCompleted now sid h)
| rc_remove fuel sid h h' :
    reachable_clean h → remove fuel sid h = Some h' → reachable_clean h'
| rc_clear h :
    reachable_clean h → reachable_clean (clear h).

(** No node has the empty string as parent id. *)
Definition no_empty_parent (h : t) : Prop :=
  ∀ x n p, nodes h !! x = Some n → parentId n = Some p → truthy_str p = true.

(** The children index is exact: what a children set lists is a node, whose
    parent id is the key of the set. *)
Definition exact_index (h : t) : Prop :=
  ∀ p ids c, childrenMap h !! p = Some ids → c ∈ ids →
             ∃ n, nodes h !! c = Some n ∧ parentId n = Some p.

(** The ancestors of a node as the data model has them, for comparison with
    [getAncestors]: the parent, the parent of the parent and so on, nearest
    first, the node itself excluded; the chain ends at a node whose parent
    id is null, or at a parent id that names no node. *)
Inductive parent_chain (h : t) : AgentNode → list AgentNode → Prop :=
| chain_root c :
    parentId c = None → parent_chain h c []
| chain_missing c p :
    parentId c = Some p → nodes h !! p = None → parent_chain h c []
| chain_step c p parent rest :
    parentId c = Some p → nodes h !! p = Some parent →
    parent_chain h parent rest → parent_chain h c (parent :: rest).

(** The descendants of a session as the data model has them, for comparison
    with [getDescendants] and [remove]: the nodes whose parent id is that
    session, and the nodes whose parent is a descendant. *)
Inductive descends (h : t) (a : string) : string → Prop :=
| descends_child x n :
    nodes h !! x = Some n → parentId n = Some a → descends h a x
| descends_step x n p :
    nodes h !! x = Some n → parentId n = Some p → descends h a p →
    descends h a x.

(** A state in which a children set lists a node that is not a child: the
    child [c] of the empty-string session is removed and added again under
    [q]. *)
Definition stale_state : t :=
  addChild 0 3 "q" "c" opts
    (default empty (remove 2 "c" (addChild 0 1 "" "c" opts empty))).

End Hierarchy.

(* ===================================================================== *)
(** * TmuxDiscovery *)
(* ===================================================================== *)

Module Discovery.

(** A JavaScript string is its sequence of UTF-16 code units. *)
Definition lit (s : string) : list N :=
  map Ascii.N_of_ascii (String.list_ascii_of_string s).

(** The characters removed by [String.prototype.trim] and skipped by
    [parseInt]: ECMAScript's WhiteSpace and LineTerminator. *)
Definition is_ws (c : N) : bool :=
  ((9 <=? c) && (c <=? 13) || (c =? 32) || (c =? 160) || (c =? 5760)
   || (8192 <=? c) && (c <=? 8202) || (c =? 8232) || (c =? 8233)
   || (c =? 8239) || (c =? 8287) || (c =? 12288) || (c =? 65279))%N.

Fixpoint drop_ws (s : list N) : list N :=
  match s with
  | c :: s' => if is_ws c then drop_ws s' else s
  | [] => []
  end.

(** [s.trim()] *)
Definition trim (s : list N) : list N :=
  reverse (drop_ws (reverse (drop_ws s))).

(** [s.split(sep)] for a one-character separator: never the empty list. *)
Fixpoint split (sep : N) (s : list N) : list (list N) :=
  match s with
  | [] => [[]]
  | c :: s' =>
      if (c =? sep)%N then [] :: split sep s'
      else match split sep s' with
           | t :: ts => (c :: t) :: ts
           | [] => [[c]]
           end
  end.

(** [parts.join(sep)] *)
Fixpoint join (sep : N) (parts : list (list N)) : list N :=
  match parts with
  | [] => []
  | [p] => p
  | p :: ps => p ++ sep :: join sep ps
  end.

Definition SPACE : N := 32.
Definition NEWLINE : N := 10.
Definition DQUOTE : N := 34.

Definition is_digit (c : N) : bool := ((48 <=? c) && (c <=? 57))%N.

(** The value of the longest prefix of decimal digits, read after [acc]. *)
Fixpoint digits_value (acc : Z) (s : list N) : Z :=
  match s with
  | c :: s' =>
      if is_digit c then digits_value (10 * acc + Z.of_N (c - 48)) s' else acc
  | [] => acc
  end.

(** [parseInt(s, 10)]; [None] is [NaN]. *)
Definition parseInt (s : list N) : option Z :=
  let s1 := drop_ws s in
  let '(sign, s2) :=
    match s1 with
    | 45%N :: r => (-1, r)
    | 43%N :: r => (1, r)
    | _ => (1, s1)
    end in
  match s2 with
  | c :: _ => if is_digit c then Some (sign * digits_value 0 s2) else None
  | [] => None
  end.

Record PaneLine := mkPane { pid : Z; cwd : list N; command : list N }.

(** [parts.slice(1, -1)] *)
Definition slice_1_m1 {A} (parts : list A) : list A :=
  take (length parts - 1 - 1)%nat (drop 1 parts).

(** [function parsePaneLine(line)]; [None] is [null]. *)
Definition parsePaneLine (line : list N) : option PaneLine :=
  let parts := split SPACE (trim line) in
  if decide (length parts < 3)%nat then None
  else
    match parseInt (nth 0 parts []) with
    | None => None
    | Some pid =>
        let command := nth (length parts - 1) parts [] in
        let cwd := join SPACE (slice_1_m1 parts) in
        match cwd with
        | [] => None
        | _ => Some (mkPane pid cwd command)
        end
    end.

(** [DiscoveredSession], from [shared/types.ts]. *)
Record DiscoveredSession := mkDiscovered {
  tmuxSession : list N;
  d_command : list N;
  d_cwd : list N;
  d_pid : Z;
  discoveredAt : Z
}.

(** [command === 'claude' || command === 'codex'] *)
Definition is_agent_command (c : list N) : bool :=
  bool_decide (c = lit "claude") || bool_decide (c = lit "codex").

Definition list_sessions_command : list N :=
  lit "tmux list-sessions -F " ++ DQUOTE :: lit "#{session_name}" ++ [DQUOTE].

Definition list_panes_command (sessionName : list N) : list N :=
  lit "tmux list-panes -t " ++ sessionName ++ lit " -F " ++ DQUOTE
  :: lit "#{pane_pid} #{pane_current_path} #{pane_current_command}"
  ++ [DQUOTE].

Section world.

(** The outside world: the state of the machine, what running a command
    yields in it ([None] when the promise of [execAsync] rejects, the
    standard output otherwise) and what the clock reads. *)
Context {World : Type}.
Variable execAsync : list N → World → option (list N) * World.
Variable date_now : World → Z * World.

(** The inner [for (const line of lines)] loop, up to its [break]. *)
Fixpoint scan_lines (sessionName : list N) (lines : list (list N)) (w : World)
    : option DiscoveredSession * World :=
  match lines with
  | [] => (None, w)
  | line :: rest =>
      match parsePaneLine line with
      | None => scan_lines sessionName rest w
      | Some parsed =>
          if is_agent_command (command parsed) then
            let '(now, w') := date_now w in
            (Some (mkDiscovered sessionName (command parsed) (cwd parsed)
                                (pid parsed) now), w')
          else scan_lines sessionName rest w
      end
  end.

(** The body of the outer [for (const sessionName of sessionNames)] loop:
    the [try] block and its [catch]. *)
Definition visit_session (acc : list DiscoveredSession * World)
    (sessionName : list N) : list DiscoveredSession * World :=
  let '(sessions, w) := acc in
  match execAsync (list_panes_command sessionName) w with
  | (None, w1) => (sessions, w1)
  | (Some stdout, w1) =>
      let lines := split NEWLINE (trim stdout) in
      match scan_lines sessionName lines w1 with
      | (Some found, w2) => (sessions ++ [found], w2)
      | (None, w2) => (sessions, w2)
      end
  end.

(** [stdout.trim().split('\n').filter((name) => name.length > 0)] *)
Definition session_names (stdout : list N) : list (list N) :=
  filter (λ name, (0 < length name)%nat) (split NEWLINE (trim stdout)).

(** [discoverClaudeSessions()]: the resolved value and the world left
    behind.  The promise never rejects. *)
Definition discoverClaudeSessions (w : World)
    : list DiscoveredSession * World :=
  match execAsync list_sessions_command w with
  | (None, w1) => ([], w1)
  | (Some stdout, w1) => foldl visit_session ([], w1) (session_names stdout)
  end.

End world.

(** The line format in the words of the specification, for comparison with
    [parsePaneLine]: the tokens of a line are its maximal runs of
    non-whitespace characters, and a line is rejected when it has fewer than
    three tokens, when its first token is not an integer, or when the join of
    the tokens between the first and the last is empty after trimming. *)
Fixpoint split_ws (s : list N) : list (list N) :=
  match s with
  | [] => [[]]
  | c :: s' =>
      if is_ws c then [] :: split_ws s'
      else match split_ws s' with
           | t :: ts => (c :: t) :: ts
           | [] => [[c]]
           end
  end.

Definition ws_tokens (s : list N) : list (list N) :=
  filter (λ t, t ≠ []) (split_ws s).

Definition spec_rejects (line : list N) : Prop :=
  let tokens := ws_tokens line in
  (length tokens < 3)%nat
  ∨ parseInt (nth 0 tokens []) = None
  ∨ trim (join SPACE (slice_1_m1 tokens)) = [].

(** The same rule over the tokens the source works with: the pieces of the
    trimmed line between single space characters, with an untrimmed join. *)
Definition code_rejects (line : list N) : Prop :=
  let parts := split SPACE (trim line) in
  (length parts < 3)%nat
  ∨ parseInt (nth 0 parts []) = None
  ∨ join SPACE (slice_1_m1 parts) = [].

(** A line that the loop passes over: it does not parse, or its command is
    not a recognised one. *)
Definition passed_over (line : list N) : Prop :=
  match parsePaneLine line with
  | None => True
  | Some parsed => is_agent_command (command parsed) = false
  end.

(** The pass of the test suite: groups [claude], [dev] and [codex]. *)
Definition test_world (command : list N) (w : unit) : option (list N) * unit :=
  if decide (command = list_sessions_command)
  then (Some (lit "claude" ++ NEWLINE :: lit "dev" ++ NEWLINE :: lit "codex"
              ++ [NEWLINE]), w)
  else if decide (command = list_panes_command (lit "claude"))
  then (Some (lit "100 /home/a claude" ++ [NEWLINE]), w)
  else if decide (command = list_panes_command (lit "dev"))
  then (Some (lit "200 /home/b zsh" ++ [NEWLINE]), w)
  else if decide (command = list_panes_command (lit "codex"))
  then (Some (lit "300 /home/c codex" ++ [NEWLINE]), w)
  else (None, w).

End Discovery.

(* ===================================================================== *)
(** * MetricsPanel: what the panel computes from a snapshot *)
(* ===================================================================== *)

Module MetricsPanel.

(** [function formatDuration(ms)], for a whole (hence finite) number of
    milliseconds. *)
Definition formatDuration (ms : Z) : string :=
  let totalSeconds := Z.max 0 (ms `div` 1000) in
  let hours := totalSeconds `div` 3600 in
  let minutes := (totalSeconds `mod` 3600) `div` 60 in
  let seconds := totalSeconds `mod` 60 in
  if decide (0 < hours) then
    pretty hours +:+ "h " +:+ pretty minutes +:+ "m"
  else if decide (0 < minutes) then
    pretty minutes +:+ "m " +:+ pretty seconds +:+ "s"
  else pretty seconds +:+ "s".

(** [Math.min] and [Math.max] *)
Definition js_min (a b : Q) : Q := if Qle_bool a b then a else b.
Definition js_max (a b : Q) : Q := if Qle_bool a b then b else a.

(** The [percent] component of the result of [formatPercent(value)]; the
    [display] string is not modelled. *)
Definition formatPercent_percent (value : Q) : Q :=
  let percent := if Qle_bool value 1 then (value * 100)%Q else value in
  js_max 0 (js_min 100 percent).

(** [function getErrorColor(percent)] *)
Definition getErrorColor (percent : Q) : string :=
  if Qle_bool percent 1 then "#4ade80"
  else if Qle_bool percent 5 then "#fbbf24"
  else if Qle_bool percent 10 then "#fb923c"
  else "#ef4444".

(** [updateErrorIndicator(percent)]: the width, in percent, and the colour
    given to the error bar. *)
Definition updateErrorIndicator (percent : Q) : Q * string :=
  let clamped := js_max 0 (js_min 100 percent) in
  (clamped, getErrorColor clamped).

(** The part of [update(sessionId, metrics)] that draws the error bar. *)
Definition error_bar (errorRate : Q) : Q * string :=
  updateErrorIndicator (formatPercent_percent errorRate).

End MetricsPanel.

(* ===================================================================== *)
(** * Properties of MetricsCollector *)
(* ===================================================================== *)

Module MetricsFacts.
Import Metrics.

(** ** Sorting and ranks *)

Lemma sort_asc_sorted values : StronglySorted Z.le (sort_asc values).
Proof. apply StronglySorted_merge_sort; apply _. Qed.

Lemma sort_asc_perm values : sort_asc values ≡ₚ values.
Proof. apply merge_sort_Permutation. Qed.

Lemma sort_asc_length values : length (sort_asc values) = length values.
Proof. by rewrite sort_asc_perm. Qed.

(** Any ascending arrangement of the sample is the one [sort] computes. *)
Lemma sort_asc_unique values sorted :
  Sorted Z.le sorted → sorted ≡ₚ values → sort_asc values = sorted.
Proof.
  intros Hs Hp. apply (Sorted_unique Z.le); [apply _ .. | | done | ].
  - apply StronglySorted_Sorted, sort_asc_sorted.
  - by rewrite sort_asc_perm.
Qed.

Lemma rank_of_ceil_div p n :
  rank_of p n = ceil_div (p * Z.of_nat n) 100.
Proof.
  unfold rank_of, ceil_div.
  assert (Heq : (inject_Z p / 100 * inject_Z (Z.of_nat n)
                 == (p * Z.of_nat n) # 100)%Q).
  { unfold Qeq, Qdiv, Qmult, Qinv, inject_Z; simpl. lia. }
  rewrite (Qceiling_comp _ _ Heq).
  unfold Qceiling, Qfloor, Qopp; simpl. reflexivity.
Qed.

Lemma ceil_div_mono a b : a ≤ b → ceil_div a 100 ≤ ceil_div b 100.
Proof.
  intros H. unfold ceil_div.
  assert ((- b) `div` 100 ≤ (- a) `div` 100) by (apply Z.div_le_mono; lia).
  lia.
Qed.

Lemma index_of_clamp p n :
  (0 < n)%nat →
  index_of p n = clamp (ceil_div (p * Z.of_nat n) 100 - 1) 0 (Z.of_nat n - 1).
Proof. intros H. unfold index_of, clamp. rewrite rank_of_ceil_div. lia. Qed.

Lemma index_of_range p n :
  (0 < n)%nat → 0 ≤ index_of p n < Z.of_nat n.
Proof. intros H. unfold index_of. lia. Qed.

Lemma index_of_mono p q n :
  p ≤ q → index_of p n ≤ index_of q n.
Proof.
  intros H. unfold index_of. rewrite !rank_of_ceil_div.
  assert (ceil_div (p * Z.of_nat n) 100 ≤ ceil_div (q * Z.of_nat n) 100)
    by (apply ceil_div_mono; nia).
  lia.
Qed.

(** In an ascending list, positions and values are ordered alike. *)
Lemma StronglySorted_nth (l : list Z) i j :
  StronglySorted Z.le l → (i ≤ j)%nat → (j < length l)%nat →
  nth i l 0 ≤ nth j l 0.
Proof.
  intros Hs. revert i j. induction Hs as [|x l Hs IH Hall]; intros i j Hij Hj.
  - simpl in Hj. lia.
  - destruct i as [|i], j as [|j]; simpl in *; try lia.
    + rewrite Forall_forall in Hall. apply Hall.
      apply list_elem_of_In, nth_In. lia.
    + apply IH; lia.
Qed.

Lemma percentile_nonempty values p :
  values ≠ [] →
  percentile values p
  = nth (Z.to_nat (index_of p (length values))) (sort_asc values) 0.
Proof.
  intros H. destruct values as [|v values]; [done|].
  unfold percentile. by rewrite sort_asc_length.
Qed.

Lemma percentile_nearest_rank values sorted p :
  values ≠ [] → Sorted Z.le sorted → sorted ≡ₚ values →
  percentile values p = nearest_rank sorted p.
Proof.
  intros Hne Hs Hp.
  rewrite percentile_nonempty by done.
  rewrite (sort_asc_unique values sorted) by done.
  assert (Hlen : length sorted = length values) by (by rewrite Hp).
  unfold nearest_rank. rewrite Hlen.
  rewrite index_of_clamp; [done|].
  destruct values; [done | simpl; lia].
Qed.

Lemma percentile_mono values p q :
  p ≤ q → percentile values p ≤ percentile values q.
Proof.
  intros Hpq. destruct values as [|v values]; [done|].
  rewrite !percentile_nonempty by done.
  set (n := length (v :: values)).
  assert (0 < n)%nat by (subst n; simpl; lia).
  pose proof (index_of_range p n). pose proof (index_of_range q n).
  pose proof (index_of_mono p q n Hpq).
  apply StronglySorted_nth; [apply sort_asc_sorted | lia |].
  rewrite sort_asc_length. fold n. lia.
Qed.

Lemma percentile_singleton d p : percentile [d] p = d.
Proof.
  rewrite percentile_nonempty by done. simpl length.
  pose proof (index_of_range p 1). 
  replace (index_of p 1) with 0 by lia. reflexivity.
Qed.

(** ** Rationals *)

Lemma avg_singleton d :
  (inject_Z (sumZ [d]) / inject_Z (Z.of_nat (length [d])) == inject_Z d)%Q.
Proof. unfold Qeq, Qdiv, Qmult, Qinv, inject_Z, sumZ; simpl. lia. Qed.

Lemma rate_as_fraction e t :
  0 < t → (inject_Z e / inject_Z t * 100 == (100 * e) # (Z.to_pos t))%Q.
Proof.
  intros Ht. destruct t as [|t|t]; try lia.
  unfold Qeq, Qdiv, Qmult, Qinv, inject_Z; simpl. lia.
Qed.

Lemma rate_bounds e t :
  0 ≤ e ≤ t → 0 < t →
  (0 <= inject_Z e / inject_Z t * 100)%Q ∧ (inject_Z e / inject_Z t * 100 <= 100)%Q.
Proof.
  intros He Ht. rewrite rate_as_fraction by done.
  destruct t as [|t|t]; try lia.
  unfold Qle; simpl. split; nia.
Qed.

Lemma rate_zero e t :
  0 < t → (inject_Z e / inject_Z t * 100 == 0)%Q ↔ e = 0.
Proof.
  intros Ht. rewrite rate_as_fraction by done.
  unfold Qeq; simpl. lia.
Qed.

(** ** What a session has accumulated *)

Lemma sumZ_snoc l x : sumZ (l ++ [x]) = sumZ l + x.
Proof. unfold sumZ. by rewrite foldl_snoc. Qed.

Lemma record_all_snoc events e sessions :
  record_all (events ++ [e]) sessions
  = recordToolUse e.1.1 e.1.2 e.2 (record_all events sessions).
Proof. unfold record_all. by rewrite foldl_snoc. Qed.

Lemma calls_of_snoc sid events e :
  calls_of sid (events ++ [e])
  = if decide (e.1.2 = sid) then calls_of sid events ++ [e.2]
    else calls_of sid events.
Proof.
  unfold calls_of. rewrite filter_app, fmap_app.
  rewrite filter_cons, filter_nil. case_decide; simpl; [done|].
  by rewrite app_nil_r.
Qed.

Lemma truthy_num_supplied o x :
  (if truthy_num o then x + default 0 o else x) = x + supplied o.
Proof.
  unfold supplied. destruct o as [n|]; simpl; [|lia].
  destruct (Z.eqb_spec n 0); simpl; lia.
Qed.

Lemma record_into_aggregates calls data s :
  aggregates calls s → aggregates (calls ++ [data]) (record_into data s).
Proof.
  intros (Hne & Hin & Hout & Hd & He & Ht).
  unfold aggregates, record_into; simpl.
  rewrite !truthy_num_supplied, !fmap_app; simpl.
  rewrite !sumZ_snoc, Hin, Hout, Hd; simpl.
  split_and!; try done.
  - by destruct calls.
  - unfold failures in *. rewrite filter_app, filter_cons, filter_nil.
    rewrite length_app, He. destruct (success data); case_decide; simpl; try done; lia.
  - rewrite length_app, Ht. simpl. lia.
Qed.

Lemma record_into_fresh now data :
  aggregates [data] (record_into data (fresh_session now)).
Proof.
  unfold aggregates, record_into, failures; simpl.
  rewrite !truthy_num_supplied. unfold sumZ; simpl.
  split_and!; try done.
  rewrite filter_cons, filter_nil.
  destruct (success data); case_decide; simpl; done.
Qed.

Lemma session_after events sid :
  match record_all events ∅ !! sid with
  | None => calls_of sid events = []
  | Some s => aggregates (calls_of sid events) s
  end.
Proof.
  induction events as [|e events IH] using rev_ind.
  - unfold record_all; simpl. by rewrite lookup_empty.
  - rewrite record_all_snoc, calls_of_snoc. unfold recordToolUse.
    case_decide as Hsid.
    + subst sid. rewrite lookup_insert_eq.
      destruct (record_all events ∅ !! e.1.2) as [s|].
      * by apply record_into_aggregates.
      * rewrite IH. apply record_into_fresh.
    + by rewrite lookup_insert_ne.
Qed.

Lemma failures_nil calls :
  failures calls = [] ↔ ∀ d, d ∈ calls → success d = true.
Proof.
  unfold failures. split.
  - intros H d Hd. destruct (success d) eqn:E; [done|].
    assert (Hin : d ∈ filter (λ d, success d = false) calls)
      by (by apply list_elem_of_filter).
    rewrite H in Hin. by apply not_elem_of_nil in Hin.
  - intros H. induction calls as [|d calls IH]; [done|].
    rewrite filter_cons. case_decide as Hd.
    + rewrite H in Hd; [done | left].
    + apply IH. intros d' Hd'. apply H. by right.
Qed.

Lemma failures_length calls : (length (failures calls) ≤ length calls)%nat.
Proof. apply length_filter. Qed.

(** ** The claims *)

(** C2.  For a session with a non-empty duration sequence, [getMetrics]
    computes p95 and p99 by the nearest-rank method over any ascending
    arrangement of the durations: rank = ceil(p/100 × count),
    index = clamp(rank − 1, 0, count − 1).  With one recorded duration,
    avg = p95 = p99 = that duration.  Three successful tool uses with
    durations 100, 200, 300 (any tools, tokens and clock values, recorded
    into a collector that does not know the session) give avg = 200,
    p95 = 300, p99 = 300 and errorRate = 0. *)
Theorem getMetrics_nearest_rank now sessions sid session :
  sessions !! sid = Some session →
  s_durations session ≠ [] →
  (∀ sorted, Sorted Z.le sorted → sorted ≡ₚ s_durations session →
     p95 (latency (getMetrics now sessions sid)) = nearest_rank sorted 95
     ∧ p99 (latency (getMetrics now sessions sid)) = nearest_rank sorted 99)
  ∧ (∀ d, s_durations session = [d] →
       (avg (latency (getMetrics now sessions sid)) == inject_Z d)%Q
       ∧ p95 (latency (getMetrics now sessions sid)) = d
       ∧ p99 (latency (getMetrics now sessions sid)) = d)
  ∧ (∀ others id n1 n2 n3 t1 t2 t3 i1 i2 i3 o1 o2 o3,
       others !! id = None →
       let m := getMetrics now
                  (record_all [(n1, id, mkToolUse t1 100 true i1 o1);
                               (n2, id, mkToolUse t2 200 true i2 o2);
                               (n3, id, mkToolUse t3 300 true i3 o3)] others)
                  id in
       (avg (latency m) == 200)%Q ∧ p95 (latency m) = 300
       ∧ p99 (latency m) = 300 ∧ (errorRate m == 0)%Q).
Proof.
  intros Hs Hne. unfold getMetrics. rewrite Hs. split_and!.
  - intros sorted Hsorted Hperm; simpl.
    by rewrite !(percentile_nearest_rank _ sorted).
  - intros d Hd; simpl. rewrite Hd, !percentile_singleton.
    split_and!; try done. apply avg_singleton.
  - intros others id n1 n2 n3 t1 t2 t3 i1 i2 i3 o1 o2 o3 Hfresh.
    unfold record_all; simpl. unfold recordToolUse.
    rewrite Hfresh. rewrite !lookup_insert_eq. simpl.
    split_and!; try by vm_compute.
Qed.

Lemma getMetrics_nearest_rank_witness :
  let sessions :=
    record_all [(0, "s", mkToolUse "Read" 40 true None None);
                (1, "s", mkToolUse "Bash" 10 false (Some 5) None)]%string ∅ in
  p95 (latency (getMetrics 7 sessions "s")) = nearest_rank [10; 40] 95
  ∧ p99 (latency (getMetrics 7 sessions "s")) = nearest_rank [10; 40] 99.
Proof.
  intros sessions.
  refine (proj1 (getMetrics_nearest_rank 7 sessions "s"
            (mkSession 5 0 [40; 10] 1 2
               (<["Bash"%string := 1]> (<["Read"%string := 1]> ∅)) 0) _ _)
            [10; 40] _ _).
  - vm_compute. reflexivity.
  - discriminate.
  - repeat constructor. simpl. lia.
  - simpl. apply Permutation_swap.
Defined.

(** C9.  For a session with a non-empty duration sequence the snapshot has
    p95 ≤ p99, and with exactly one recorded duration
    avg = p95 = p99 = that duration. *)
Theorem getMetrics_p95_le_p99 now sessions sid session :
  sessions !! sid = Some session →
  s_durations session ≠ [] →
  p95 (latency (getMetrics now sessions sid))
    ≤ p99 (latency (getMetrics now sessions sid))
  ∧ (∀ d, s_durations session = [d] →
       (avg (latency (getMetrics now sessions sid)) == inject_Z d)%Q
       ∧ p95 (latency (getMetrics now sessions sid)) = d
       ∧ p99 (latency (getMetrics now sessions sid)) = d).
Proof.
  intros Hs Hne. unfold getMetrics. rewrite Hs; simpl. split.
  - apply percentile_mono. lia.
  - intros d Hd. rewrite Hd, !percentile_singleton.
    split_and!; try done. apply avg_singleton.
Qed.

Lemma getMetrics_p95_le_p99_witness :
  let sessions :=
    record_all [(3, "a", mkToolUse "Edit" 250 true (Some 12) (Some 30));
                (4, "a", mkToolUse "Read" 90 true None None);
                (9, "a", mkToolUse "Read" 400 false None (Some 2))]%string ∅ in
  p95 (latency (getMetrics 20 sessions "a"))
    ≤ p99 (latency (getMetrics 20 sessions "a")).
Proof.
  intros sessions.
  refine (proj1 (getMetrics_p95_le_p99 20 sessions "a"
            (mkSession 12 32 [250; 90; 400] 1 3
               (<["Read"%string := 2]> (<["Edit"%string := 1]> ∅)) 3) _ _)).
  - vm_compute. reflexivity.
  - discriminate.
Defined.

(** C4.  After any sequence of [recordToolUse] calls on a new collector, the
    snapshot of a session has: tokens.input and tokens.output equal to the
    sums of the supplied values over the calls made on that session (an
    absent value contributing 0), tokens.total = tokens.input +
    tokens.output, 0 ≤ errorRate ≤ 100, and errorRate = 0 exactly when none
    of those calls had [success = false]. *)
Theorem getMetrics_totals events sid now :
  let m := getMetrics now (record_all events ∅) sid in
  let calls := calls_of sid events in
  input (tokens m) = sumZ (supplied ∘ inputTokens <$> calls)
  ∧ output (tokens m) = sumZ (supplied ∘ outputTokens <$> calls)
  ∧ total (tokens m) = input (tokens m) + output (tokens m)
  ∧ (0 <= errorRate m)%Q ∧ (errorRate m <= 100)%Q
  ∧ ((errorRate m == 0)%Q ↔ ∀ d, d ∈ calls → success d = true).
Proof.
  intros m calls. subst m calls. unfold getMetrics.
  pose proof (session_after events sid) as H.
  destruct (record_all events ∅ !! sid) as [s|].
  - destruct H as (Hne & Hin & Hout & _ & He & Ht).
    unfold session_metrics; simpl.
    pose proof (failures_length (calls_of sid events)) as Hle.
    assert (0 < s_totalCount s)
      by (rewrite Ht; destruct (calls_of sid events); [done | simpl; lia]).
    rewrite decide_True by done.
    split_and!; try done.
    + apply rate_bounds; lia.
    + apply rate_bounds; lia.
    + rewrite rate_zero by done. rewrite <- failures_nil, He.
      destruct (failures (calls_of sid events)); simpl; split; (done || lia).
  - rewrite H; simpl. split_and!; try done.
    split; [intros _ d Hd; by apply not_elem_of_nil in Hd | done].
Qed.

(** ** Unknown and cleared sessions *)

(** The sessions on which a command sequence records a tool use after the
    last time it cleared them. *)
Lemma run_snoc ops o : run (ops ++ [o]) = exec (run ops) o.
Proof. unfold run. by rewrite foldl_snoc. Qed.

Lemma never_recorded_absent ops sid :
  (∀ now data, RecordToolUse now sid data ∉ ops) → run ops !! sid = None.
Proof.
  induction ops as [|o ops IH] using rev_ind; intros Hnot.
  - unfold run; simpl. apply lookup_empty.
  - rewrite run_snoc.
    assert (IH' : run ops !! sid = None).
    { apply IH. intros now data Hin. apply (Hnot now data).
      apply elem_of_app. by left. }
    destruct o as [now' sid' data'| sid' |]; simpl.
    + unfold recordToolUse. rewrite lookup_insert_ne; [done|].
      intros ->. apply (Hnot now' data'). apply elem_of_app. right. left.
    + unfold clearSession. destruct (decide (sid' = sid)) as [->|].
      * apply lookup_delete_eq.
      * by rewrite lookup_delete_ne.
    + apply lookup_empty.
Qed.

(** C8.  [getMetrics] returns the all-zero snapshot (tokens 0/0/0/0, latency
    0/0/0, errorRate 0, no tool counts, duration 0) for a session on which
    no tool use was ever recorded, whatever else the collector went through,
    and for any session right after [clearSession] was called on it, in any
    collector.  [getMetrics] is a total function: there is no error to
    raise. *)
Theorem getMetrics_unknown_or_cleared now sid :
  (∀ ops, (∀ now' data, RecordToolUse now' sid data ∉ ops) →
     getMetrics now (run ops) sid
     = mkMetrics (mkTokens 0 0 0 0) (mkLatency 0 0 0) 0 ∅ 0)
  ∧ (∀ sessions,
       getMetrics now (clearSession sid sessions) sid
       = mkMetrics (mkTokens 0 0 0 0) (mkLatency 0 0 0) 0 ∅ 0).
Proof.
  split.
  - intros ops Hnot. unfold getMetrics.
    by rewrite never_recorded_absent.
  - intros sessions. unfold getMetrics, clearSession.
    by rewrite lookup_delete_eq.
Qed.

Lemma getMetrics_unknown_or_cleared_witness :
  getMetrics 50
    (run [RecordToolUse 1 "b" (mkToolUse "Read" 5 true None None);
          ClearSession "a";
          RecordToolUse 2 "b" (mkToolUse "Bash" 7 false (Some 3) None)]%string)
    "a"
  = mkMetrics (mkTokens 0 0 0 0) (mkLatency 0 0 0) 0 ∅ 0.
Proof.
  apply (proj1 (getMetrics_unknown_or_cleared 50 "a")).
  intros now' data Hin.
  repeat (apply elem_of_cons in Hin as [Hin|Hin]; [discriminate Hin|]).
  by apply not_elem_of_nil in Hin.
Defined.

(** ** Frame *)

(** C10.  [recordToolUse] on a session A leaves every other session B as it
    was: [getMetrics] of B, read at the same clock value, returns the same
    snapshot before and after the call, and B is a key of the result of
    [getAllMetrics], with the same value, after the call exactly when it was
    before. *)
Theorem recordToolUse_frame sessions A B nowA data now :
  A ≠ B →
  getMetrics now (recordToolUse nowA A data sessions) B
  = getMetrics now sessions B
  ∧ getAllMetrics now (recordToolUse nowA A data sessions) !! B
    = getAllMetrics now sessions !! B.
Proof.
  intros Hne. unfold getMetrics, getAllMetrics, recordToolUse. split.
  - by rewrite lookup_insert_ne.
  - rewrite !lookup_fmap. f_equal.
    destruct (decide (B = "__proto__"%string)) as [HB|HB].
    + rewrite !map_lookup_filter_None_2; [done | right | right];
        intros x _; simpl; tauto.
    + destruct (sessions !! B) as [s|] eqn:Hs.
      * rewrite !(map_lookup_filter_Some_2 _ _ B s); try done.
        by rewrite lookup_insert_ne.
      * rewrite !map_lookup_filter_None_2; try done; left; [done|].
        by rewrite lookup_insert_ne.
Qed.

Lemma recordToolUse_frame_witness :
  let sessions :=
    record_all [(1, "B", mkToolUse "Read" 30 true (Some 8) None)]%string ∅ in
  getMetrics 10
    (recordToolUse 2 "A" (mkToolUse "Bash" 5 false None (Some 4)) sessions)
    "B"
  = getMetrics 10 sessions "B".
Proof.
  intros sessions.
  refine (proj1 (recordToolUse_frame sessions "A" "B" 2
                   (mkToolUse "Bash" 5 false None (Some 4)) 10 _)).
  discriminate.
Defined.

(** ** Further properties of the collector *)

(** The session object after some calls: the updates of [recordToolUse]
    applied in order to the object created by the first call. *)
Lemma lookup_record_all events sid :
  record_all events ∅ !! sid
  = (λ now0, foldl (λ s d, record_into d s) (fresh_session now0)
                   (calls_of sid events))
    <$> first_clock sid events.
Proof.
  induction events as [|e events IH] using rev_ind.
  - unfold record_all; simpl. by rewrite lookup_empty.
  - rewrite record_all_snoc, calls_of_snoc. unfold recordToolUse, first_clock.
    rewrite filter_app, filter_cons, filter_nil.
    unfold first_clock in IH.
    destruct (decide (e.1.2 = sid)) as [Hsid|Hsid].
    + rewrite <- Hsid at 1. rewrite lookup_insert_eq. rewrite Hsid, IH.
      destruct (filter (λ e0, e0.1.2 = sid) events) as [|e0 rest] eqn:E;
        simpl.
      * unfold calls_of. rewrite E. done.
      * by rewrite foldl_snoc.
    + rewrite lookup_insert_ne by done. rewrite IH. by rewrite app_nil_r.
Qed.

Lemma record_into_startTime calls s :
  s_startTime (foldl (λ s d, record_into d s) s calls) = s_startTime s.
Proof.
  revert s. induction calls as [|d calls IH]; intros s; [done|].
  simpl. by rewrite IH.
Qed.

Lemma tool_uses_snoc name calls d :
  tool_uses name (calls ++ [d])
  = tool_uses name calls + (if decide (tool d = name) then 1 else 0).
Proof.
  unfold tool_uses. rewrite filter_app, filter_cons, filter_nil, length_app.
  case_decide; simpl; lia.
Qed.

Lemma tool_uses_nonneg name calls : 0 ≤ tool_uses name calls.
Proof. unfold tool_uses. lia. Qed.

Lemma record_into_toolCounts calls now0 name :
  s_toolCounts (foldl (λ s d, record_into d s) (fresh_session now0) calls)
    !! name
  = if decide (tool_uses name calls = 0) then None
    else Some (tool_uses name calls).
Proof.
  induction calls as [|d calls IH] using rev_ind.
  - simpl. by rewrite lookup_empty.
  - rewrite foldl_snoc, tool_uses_snoc.
    set (s := foldl (λ s d, record_into d s) (fresh_session now0) calls) in *.
    pose proof (tool_uses_nonneg name calls) as Hn.
    unfold record_into at 1; simpl.
    destruct (decide (tool d = name)) as [Hd|Hd].
    + rewrite Hd, lookup_insert_eq, IH.
      rewrite (decide_False (P := _ + 1 = 0)) by lia.
      case_decide as Hz; [by rewrite Hz|].
      destruct (Z.eqb_spec (tool_uses name calls) 0); [done | done].
    + rewrite lookup_insert_ne by done. rewrite IH, Z.add_0_r. done.
Qed.

(** X1.  The tool histogram of a snapshot counts, for every tool name that
    is not a property inherited from [Object.prototype], the calls made on
    that session with that tool; such a tool that was never used has no
    entry. *)
Theorem getMetrics_toolCounts events sid now name :
  name ∉ object_prototype_names →
  toolCounts (getMetrics now (record_all events ∅) sid) !! name
  = if decide (tool_uses name (calls_of sid events) = 0) then None
    else Some (tool_uses name (calls_of sid events)).
Proof.
  intros _. unfold getMetrics. rewrite lookup_record_all.
  destruct (first_clock sid events) as [now0|] eqn:E; simpl.
  - apply record_into_toolCounts.
  - unfold first_clock in E. unfold calls_of.
    destruct (filter (λ e, e.1.2 = sid) events); [|done].
    simpl. by rewrite lookup_empty.
Qed.

Lemma getMetrics_toolCounts_witness :
  toolCounts
    (getMetrics 9
       (record_all [(1, "s", mkToolUse "Read" 5 true None None);
                    (2, "t", mkToolUse "Read" 5 true None None);
                    (3, "s", mkToolUse "Bash" 5 false None None);
                    (4, "s", mkToolUse "Read" 5 true None None)]%string ∅)
       "s") !! "Read"
  = Some 2.
Proof.
  apply (getMetrics_toolCounts
           [(1, "s", mkToolUse "Read" 5 true None None);
            (2, "t", mkToolUse "Read" 5 true None None);
            (3, "s", mkToolUse "Bash" 5 false None None);
            (4, "s", mkToolUse "Read" 5 true None None)]%string "s" 9 "Read").
  intros H.
  repeat (apply elem_of_cons in H as [H|H]; [discriminate H|]).
  by apply not_elem_of_nil in H.
Defined.

(** X2.  The duration of a snapshot is measured from the first call on that
    session: it is the clock value of the query minus the clock value read
    by that first call, whatever the later calls read. *)
Theorem getMetrics_duration events sid now now0 :
  first_clock sid events = Some now0 →
  m_duration (getMetrics now (record_all events ∅) sid) = now - now0.
Proof.
  intros H. unfold getMetrics. rewrite lookup_record_all, H. simpl.
  by rewrite record_into_startTime.
Qed.

Lemma getMetrics_duration_witness :
  m_duration
    (getMetrics 100
       (record_all [(10, "s", mkToolUse "Read" 5 true None None);
                    (40, "s", mkToolUse "Read" 7 true None None)]%string ∅)
       "s")
  = 100 - 10.
Proof. apply getMetrics_duration. reflexivity. Defined.

Lemma elem_of_nth_lt (l : list Z) i :
  (i < length l)%nat → nth i l 0 ∈ l.
Proof. intros H. by apply list_elem_of_In, nth_In. Qed.

(** X4.  A percentile of a non-empty sample is one of its elements. *)
Theorem percentile_elem_of values p :
  values ≠ [] → percentile values p ∈ values.
Proof.
  intros Hne. rewrite percentile_nonempty by done.
  rewrite <- (sort_asc_perm values) at 3.
  apply elem_of_nth_lt. rewrite sort_asc_length.
  assert (0 < length values)%nat by (destruct values; [done | simpl; lia]).
  pose proof (index_of_range p (length values)). lia.
Qed.

Lemma percentile_elem_of_witness : percentile [30; 10; 20] 95 ∈ [30; 10; 20].
Proof. apply percentile_elem_of. discriminate. Defined.

Lemma index_of_last p n :
  (0 < n)%nat → 100 * (Z.of_nat n - 1) < p * Z.of_nat n →
  p ≤ 100 → index_of p n = Z.of_nat n - 1.
Proof.
  intros Hn Hp Hle. rewrite index_of_clamp by done. unfold clamp, ceil_div.
  assert (Z.of_nat n - 1 < - ((- (p * Z.of_nat n)) `div` 100)).
  { pose proof (Z.mod_pos_bound (- (p * Z.of_nat n)) 100 ltac:(lia)).
    pose proof (Z.div_mod (- (p * Z.of_nat n)) 100 ltac:(lia)). lia. }
  lia.
Qed.

Lemma percentile_max values p :
  values ≠ [] →
  100 * (Z.of_nat (length values) - 1) < p * Z.of_nat (length values) →
  p ≤ 100 →
  ∀ d, d ∈ values → d ≤ percentile values p.
Proof.
  intros Hne Hp Hle d Hd.
  assert (Hn : (0 < length values)%nat)
    by (destruct values; [done | simpl; lia]).
  rewrite percentile_nonempty by done.
  rewrite index_of_last by done.
  rewrite <- (sort_asc_perm values) in Hd.
  apply list_elem_of_lookup in Hd as [i Hi].
  pose proof (lookup_lt_Some _ _ _ Hi) as Hlt.
  rewrite sort_asc_length in Hlt.
  rewrite <- (nth_lookup_Some _ _ 0 _ Hi).
  apply StronglySorted_nth; [apply sort_asc_sorted | lia |].
  rewrite sort_asc_length. lia.
Qed.

(** X5.  With fewer than 100 recorded durations p99 is the largest of them,
    and with fewer than 20 so is p95. *)
Theorem small_sample_percentiles values :
  values ≠ [] →
  ((length values < 100)%nat →
     ∀ d, d ∈ values → d ≤ percentile values 99)
  ∧ ((length values < 20)%nat →
       ∀ d, d ∈ values → d ≤ percentile values 95).
Proof.
  intros Hne. split; intros Hlen; apply percentile_max; try done; lia.
Qed.

Lemma small_sample_percentiles_witness :
  300 ≤ percentile [100; 300; 200] 99.
Proof.
  refine (proj1 (small_sample_percentiles [100; 300; 200] _) _ 300 _).
  - discriminate.
  - simpl. lia.
  - right. left.
Defined.

(** X6.  Percentiles do not depend on the order in which the durations were
    recorded. *)
Theorem percentile_permutation values1 values2 p :
  values1 ≡ₚ values2 → percentile values1 p = percentile values2 p.
Proof.
  intros Hp. destruct values1 as [|v1 l1].
  - apply Permutation_nil_l in Hp. by subst.
  - assert (values2 ≠ []).
    { intros ->. by apply Permutation_nil_r in Hp. }
    rewrite !percentile_nonempty by done.
    assert (Hlen : length (v1 :: l1) = length values2) by (by rewrite Hp).
    rewrite Hlen. f_equal.
    apply sort_asc_unique; [apply StronglySorted_Sorted, sort_asc_sorted|].
    by rewrite sort_asc_perm.
Qed.

Lemma percentile_permutation_witness :
  percentile [5; 9; 1] 95 = percentile [9; 5; 1] 95.
Proof. apply percentile_permutation. apply Permutation_swap. Defined.

(** X7.  [getAllMetrics] has an entry exactly for the sessions of the
    collector, the one named [__proto__] excepted, and the entry of a
    session is what [getMetrics] returns for it. *)
Theorem getAllMetrics_lookup now sessions sid m :
  getAllMetrics now sessions !! sid = Some m
  ↔ sid ≠ "__proto__"%string
    ∧ is_Some (sessions !! sid)
    ∧ m = getMetrics now sessions sid.
Proof.
  unfold getAllMetrics, getMetrics. rewrite lookup_fmap. split.
  - intros H. apply fmap_Some in H as (s & Hs & ->).
    apply map_lookup_filter_Some in Hs as [Hs Hne]. simpl in Hne.
    rewrite Hs. eauto.
  - intros (Hne & [s Hs] & ->). rewrite Hs.
    by rewrite (map_lookup_filter_Some_2 _ _ sid s).
Qed.

(** X8.  Clearing starts a session over: after [clearSession] on it, or
    after [clearAll], the first call on a session leaves the same snapshot
    as the same call on a new collector; and after [clearAll]
    [getAllMetrics] is empty. *)
Theorem record_after_clear now sid data sessions q :
  getMetrics q (recordToolUse now sid data (clearSession sid sessions)) sid
  = getMetrics q (recordToolUse now sid data ∅) sid
  ∧ getMetrics q (recordToolUse now sid data (clearAll sessions)) sid
    = getMetrics q (recordToolUse now sid data ∅) sid
  ∧ getAllMetrics q (clearAll sessions) = ∅.
Proof.
  unfold getMetrics, recordToolUse, clearSession, clearAll. split_and!.
  - by rewrite lookup_delete_eq, lookup_empty, !lookup_insert_eq.
  - done.
  - unfold getAllMetrics. by rewrite map_filter_empty, fmap_empty.
Qed.

(** X9.  [clearSession] leaves every other session as it was. *)
Theorem clearSession_frame now sessions A B :
  A ≠ B →
  getMetrics now (clearSession A sessions) B = getMetrics now sessions B
  ∧ getAllMetrics now (clearSession A sessions) !! B
    = getAllMetrics now sessions !! B.
Proof.
  intros Hne. unfold getMetrics, getAllMetrics, clearSession. split.
  - by rewrite lookup_delete_ne.
  - rewrite !lookup_fmap. f_equal.
    destruct (filter (λ kv, kv.1 ≠ "__proto__"%string) sessions !! B)
      as [s|] eqn:E.
    + apply map_lookup_filter_Some in E as [E1 E2].
      apply map_lookup_filter_Some. by rewrite lookup_delete_ne.
    + apply map_lookup_filter_None. apply map_lookup_filter_None in E.
      by rewrite lookup_delete_ne.
Qed.

Lemma clearSession_frame_witness :
  getMetrics 9
    (clearSession "A"
       (record_all [(1, "B", mkToolUse "Read" 30 true (Some 8) None)]%string ∅))
    "B"
  = getMetrics 9
      (record_all [(1, "B", mkToolUse "Read" 30 true (Some 8) None)]%string ∅)
      "B".
Proof.
  refine (proj1 (clearSession_frame 9 _ "A" "B" _)). discriminate.
Defined.

End MetricsFacts.

(* ===================================================================== *)
(** * Properties of TmuxDiscovery *)
(* ===================================================================== *)

Module DiscoveryFacts.
Import Discovery.

(** ** Strings *)

Lemma split_nonempty sep s : split sep s ≠ [].
Proof. destruct s as [|c s]; simpl; [done|]. by repeat case_match. Qed.

Lemma join_split sep s : join sep (split sep s) = s.
Proof.
  induction s as [|c s IH]; simpl; [done|].
  pose proof (split_nonempty sep s) as Hne.
  destruct (N.eqb_spec c sep) as [->|Hc].
  - destruct (split sep s) as [|t ts] eqn:E; [done|].
    simpl in *. by rewrite IH.
  - destruct (split sep s) as [|t ts] eqn:E; [done|].
    destruct ts; simpl in *; by rewrite <- IH.
Qed.

Lemma split_no_sep sep s part : part ∈ split sep s → sep ∉ part.
Proof.
  revert part. induction s as [|c s IH]; simpl; intros part Hin.
  - apply list_elem_of_singleton in Hin as ->. apply not_elem_of_nil.
  - destruct (N.eqb_spec c sep) as [->|Hc].
    + apply elem_of_cons in Hin as [->|Hin]; [apply not_elem_of_nil | by apply IH].
    + pose proof (split_nonempty sep s) as Hne.
      destruct (split sep s) as [|t ts] eqn:E; [done|].
      apply elem_of_cons in Hin as [->|Hin].
      * intros [?|Ht]%elem_of_cons; [done|]. revert Ht. apply IH. left.
      * apply IH. by right.
Qed.

Lemma join_cons sep p ps :
  ps ≠ [] → join sep (p :: ps) = p ++ sep :: join sep ps.
Proof. by destruct ps. Qed.

Lemma join_snoc sep ps p :
  ps ≠ [] → join sep (ps ++ [p]) = join sep ps ++ sep :: p.
Proof.
  induction ps as [|q ps IH]; [done|]. intros _.
  destruct ps as [|q' ps]; [done|].
  change ((q :: q' :: ps) ++ [p]) with (q :: ((q' :: ps) ++ [p])).
  rewrite join_cons by done. rewrite IH by done.
  rewrite (join_cons sep q (q' :: ps)) by done.
  by rewrite <- app_assoc.
Qed.

(** A list of at least three parts is its first part, the parts that
    [slice(1, -1)] selects, and its last part. *)
Lemma parts_shape (parts : list (list N)) :
  (3 ≤ length parts)%nat →
  slice_1_m1 parts ≠ []
  ∧ parts = nth 0 parts [] :: slice_1_m1 parts
            ++ [nth (length parts - 1) parts []].
Proof.
  intros Hlen. destruct parts as [|p0 rest]; [simpl in Hlen; lia|].
  destruct rest as [|x mid _] using rev_ind; [simpl in Hlen; lia|].
  assert (Hmid : mid ≠ []).
  { intros ->. simpl in Hlen. lia. }
  unfold slice_1_m1. simpl drop. rewrite drop_0.
  replace (length (p0 :: mid ++ [x]) - 1 - 1)%nat with (length mid)
    by (simpl; rewrite length_app; simpl; lia).
  rewrite take_app_length.
  replace (length (p0 :: mid ++ [x]) - 1)%nat with (S (length mid))
    by (simpl; rewrite length_app; simpl; lia).
  simpl nth. rewrite app_nth2 by lia. rewrite Nat.sub_diag. done.
Qed.

(** ** The line parser *)

Example parsePaneLine_plain :
  parsePaneLine (lit "12345 /Users/dev/project claude")
  = Some (mkPane 12345 (lit "/Users/dev/project") (lit "claude")).
Proof. vm_compute. reflexivity. Qed.

Example parsePaneLine_spaces_in_cwd :
  parsePaneLine (lit "  77 /home/my  project/x codex ")
  = Some (mkPane 77 (lit "/home/my  project/x") (lit "codex")).
Proof. vm_compute. reflexivity. Qed.

Example parsePaneLine_malformed :
  parsePaneLine (lit "not-a-valid-line") = None.
Proof. vm_compute. reflexivity. Qed.

Example parsePaneLine_blank_cwd :
  parsePaneLine (lit "100   claude")
  = Some (mkPane 100 (lit " ") (lit "claude")).
Proof. vm_compute. reflexivity. Qed.

(** C5, as stated, fails: the line made of [100], three spaces and [claude]
    has two whitespace-separated tokens, and the text between its first and
    last token is blank, so the stated rule rejects it; [parsePaneLine]
    accepts it, with a CWD of one space. *)
Lemma parsePaneLine_accepts_blank_cwd :
  ¬ (parsePaneLine (lit "100   claude") = None
     ↔ spec_rejects (lit "100   claude")).
Proof.
  intros [_ H]. rewrite parsePaneLine_blank_cwd in H.
  assert (Hr : spec_rejects (lit "100   claude")).
  { left. vm_compute. lia. }
  specialize (H Hr). discriminate H.
Qed.

(** C5, amended.  Let the parts of a line be the pieces of the trimmed line
    between single space characters (two adjacent spaces enclose an empty
    part).  [parsePaneLine] rejects the line exactly when it has fewer than
    three parts, or [parseInt] of the first part is [NaN], or the join of
    the parts between the first and the last, taken as it is, is the empty
    string.  On acceptance PID is [parseInt] of the first part, COMMAND is
    the last part, CWD is the join by single spaces of the parts in between,
    and the trimmed line reads: first part, space, CWD, space, COMMAND, where
    neither the first part nor COMMAND contains a space. *)
Theorem parsePaneLine_spec line :
  let parts := split SPACE (trim line) in
  (parsePaneLine line = None ↔ code_rejects line)
  ∧ (∀ r, parsePaneLine line = Some r →
       parseInt (nth 0 parts []) = Some (pid r)
       ∧ command r = nth (length parts - 1) parts []
       ∧ cwd r = join SPACE (slice_1_m1 parts)
       ∧ cwd r ≠ []
       ∧ trim line
         = nth 0 parts [] ++ (SPACE :: (cwd r ++ (SPACE :: command r)))
       ∧ (SPACE ∉ nth 0 parts [])
       ∧ (SPACE ∉ command r)).
Proof.
  intros parts. unfold parsePaneLine, code_rejects. fold parts.
  destruct (decide (length parts < 3)%nat) as [Hlt|Hge].
  { split; [split; [by left | done] | done]. }
  destruct (parseInt (nth 0 parts [])) as [n|] eqn:Hpid.
  2: { split; [split; [by (right; left) | done] | done]. }
  destruct (join SPACE (slice_1_m1 parts)) as [|c cs] eqn:Hcwd.
  { split; [split; [by (right; right) | done] | done]. }
  split.
  - split; [done|]. intros [?|[?|?]]; [lia | done | done].
  - intros r [= <-]; simpl.
    destruct (parts_shape parts) as [Hmid Hparts]; [lia|].
    split_and!; try done.
    + rewrite <- (join_split SPACE (trim line)). fold parts.
      rewrite Hparts at 1.
      rewrite join_cons by (by destruct (slice_1_m1 parts)).
      rewrite join_snoc by done. by rewrite Hcwd.
    + apply (split_no_sep SPACE (trim line)). fold parts.
      apply list_elem_of_In, nth_In. lia.
    + apply (split_no_sep SPACE (trim line)). fold parts.
      apply list_elem_of_In, nth_In. lia.
Qed.

Lemma parsePaneLine_spec_witness :
  parseInt (nth 0 (split SPACE (trim (lit "300 /home/c codex"))) [])
  = Some 300.
Proof.
  refine (proj1 (proj2 (parsePaneLine_spec (lit "300 /home/c codex"))
                   (mkPane 300 (lit "/home/c") (lit "codex")) _)).
  vm_compute. reflexivity.
Defined.

(** ** The discovery pass *)

Lemma is_agent_command_spec c :
  is_agent_command c = true ↔ c = lit "claude" ∨ c = lit "codex".
Proof.
  unfold is_agent_command. rewrite orb_true_iff, !bool_decide_eq_true. done.
Qed.

Example is_agent_command_case_sensitive :
  is_agent_command (lit "Claude") = false
  ∧ is_agent_command (lit "claude ") = false
  ∧ is_agent_command (lit "codex-cli") = false.
Proof. vm_compute. done. Qed.

Lemma trim_blank_session_names stdout :
  trim stdout = [] → session_names stdout = [].
Proof. intros H. unfold session_names. rewrite H. simpl. done. Qed.

Section world.

Context {World : Type}.
Variable execAsync : list N → World → option (list N) * World.
Variable date_now : World → Z * World.

Abbreviation scan_lines := (scan_lines date_now).
Abbreviation visit_session := (visit_session execAsync date_now).
Abbreviation discoverClaudeSessions := (discoverClaudeSessions execAsync date_now).

Lemma scan_lines_skip name line rest w :
  passed_over line → scan_lines name (line :: rest) w = scan_lines name rest w.
Proof.
  unfold passed_over. simpl. destruct (parsePaneLine line) as [parsed|]; [|done].
  by intros ->.
Qed.

Lemma scan_lines_none name lines w :
  Forall passed_over lines → scan_lines name lines w = (None, w).
Proof.
  induction 1 as [|line lines Hl _ IH]; [done|].
  by rewrite scan_lines_skip.
Qed.

Lemma scan_lines_first name before line parsed after w :
  Forall passed_over before →
  parsePaneLine line = Some parsed →
  is_agent_command (command parsed) = true →
  scan_lines name (before ++ line :: after) w
  = (Some (mkDiscovered name (command parsed) (cwd parsed) (pid parsed)
                        (date_now w).1),
     (date_now w).2).
Proof.
  intros Hb Hp Ha. induction Hb as [|l before Hl _ IH]; simpl app.
  - simpl. rewrite Hp, Ha. by destruct (date_now w).
  - by rewrite scan_lines_skip.
Qed.

Lemma scan_lines_name name lines w found w' :
  scan_lines name lines w = (Some found, w') → tmuxSession found = name.
Proof.
  induction lines as [|line lines IH]; simpl; [done|].
  destruct (parsePaneLine line) as [parsed|]; [|done].
  destruct (is_agent_command (command parsed)); [|done].
  destruct (date_now w). by intros [= <- _].
Qed.

(** What visiting one group adds, whatever was collected before it. *)
Lemma visit_session_acc acc w name :
  visit_session (acc, w) name
  = (acc ++ (visit_session ([], w) name).1, (visit_session ([], w) name).2).
Proof.
  unfold Discovery.visit_session.
  destruct (execAsync (list_panes_command name) w) as [[stdout|] w1]; simpl.
  - destruct (Discovery.scan_lines date_now name _ w1) as [[found|] w2]; simpl;
      by rewrite ?app_nil_r.
  - by rewrite app_nil_r.
Qed.

Lemma visit_session_names w name :
  tmuxSession <$> (visit_session ([], w) name).1 = [name]
  ∨ (visit_session ([], w) name).1 = [].
Proof.
  unfold Discovery.visit_session.
  destruct (execAsync (list_panes_command name) w) as [[stdout|] w1];
    simpl; [|by right].
  destruct (Discovery.scan_lines date_now name _ w1) as [[found|] w2] eqn:E;
    simpl; [|by right].
  left. by rewrite (scan_lines_name _ _ _ _ _ E).
Qed.

Lemma foldl_visit_cons acc w name names :
  foldl visit_session (acc, w) (name :: names)
  = foldl visit_session
      (acc ++ (visit_session ([], w) name).1, (visit_session ([], w) name).2)
      names.
Proof. cbn [foldl]. by rewrite visit_session_acc. Qed.

Lemma foldl_visit_sublist names acc w :
  ∃ l, tmuxSession <$> (foldl visit_session (acc, w) names).1
       = (tmuxSession <$> acc) ++ l
       ∧ l `sublist_of` names.
Proof.
  revert acc w. induction names as [|name names IH]; intros acc w.
  - exists []. simpl. by rewrite app_nil_r.
  - rewrite foldl_visit_cons.
    destruct (IH (acc ++ (visit_session ([], w) name).1)
                 (visit_session ([], w) name).2) as (l & Hl & Hsub).
    rewrite Hl, fmap_app, <- app_assoc.
    destruct (visit_session_names w name) as [H|H]; rewrite H.
    + exists (name :: l). split; [done|]. by apply sublist_skip.
    + exists l. split; [done|]. by apply sublist_cons.
Qed.

(** C6.  A discovery pass never fails.  If the group listing fails, or yields
    no name, the result is empty.  Otherwise the groups are visited in
    listing order and the names of the sessions found form a sublist of the
    group names: a group contributes at most one session.  Visiting a group
    whose process query fails adds nothing and goes on with the remaining
    groups.  Visiting a group whose query succeeds adds the session of the
    first line that parses with a command equal to [claude] or [codex],
    whatever the lines after it are, and adds nothing when there is no such
    line.  The recognised commands are exactly those two strings. *)
Theorem discoverClaudeSessions_spec w :
  (∀ w1, execAsync list_sessions_command w = (None, w1) →
     discoverClaudeSessions w = ([], w1))
  ∧ (∀ stdout w1, execAsync list_sessions_command w = (Some stdout, w1) →
       (session_names stdout = [] → discoverClaudeSessions w = ([], w1))
       ∧ discoverClaudeSessions w
         = foldl visit_session ([], w1) (session_names stdout)
       ∧ tmuxSession <$> (discoverClaudeSessions w).1
           `sublist_of` session_names stdout)
  ∧ (∀ acc w0 name names,
       (∀ w1, execAsync (list_panes_command name) w0 = (None, w1) →
          foldl visit_session (acc, w0) (name :: names)
          = foldl visit_session (acc, w1) names)
       ∧ (∀ stdout w1 before line parsed after,
            execAsync (list_panes_command name) w0 = (Some stdout, w1) →
            split NEWLINE (trim stdout) = before ++ line :: after →
            Forall passed_over before →
            parsePaneLine line = Some parsed →
            is_agent_command (command parsed) = true →
            foldl visit_session (acc, w0) (name :: names)
            = foldl visit_session
                (acc ++ [mkDiscovered name (command parsed) (cwd parsed)
                                      (pid parsed) (date_now w1).1],
                 (date_now w1).2)
                names)
       ∧ (∀ stdout w1,
            execAsync (list_panes_command name) w0 = (Some stdout, w1) →
            Forall passed_over (split NEWLINE (trim stdout)) →
            foldl visit_session (acc, w0) (name :: names)
            = foldl visit_session (acc, w1) names))
  ∧ (∀ c, is_agent_command c = true ↔ c = lit "claude" ∨ c = lit "codex").
Proof.
  split_and!.
  - intros w1 H. unfold Discovery.discoverClaudeSessions. by rewrite H.
  - intros stdout w1 H. unfold Discovery.discoverClaudeSessions. rewrite H.
    split_and!.
    + by intros ->.
    + done.
    + destruct (foldl_visit_sublist (session_names stdout) [] w1)
        as (l & Hl & Hsub).
      rewrite Hl. done.
  - intros acc w0 name names. split_and!.
    + intros w1 H. cbn [foldl]. unfold Discovery.visit_session at 2.
      by rewrite H.
    + intros stdout w1 before line parsed after H Hsplit Hb Hp Ha.
      cbn [foldl]. unfold Discovery.visit_session at 2.
      rewrite H, Hsplit.
      by rewrite (scan_lines_first name before line parsed after w1).
    + intros stdout w1 H Hall. cbn [foldl].
      unfold Discovery.visit_session at 2.
      by rewrite H, scan_lines_none.
  - apply is_agent_command_spec.
Qed.

End world.

Example discover_test_world :
  (discoverClaudeSessions test_world (λ w, (1700, w)) ()).1
  = [mkDiscovered (lit "claude") (lit "claude") (lit "/home/a") 100 1700;
     mkDiscovered (lit "codex") (lit "codex") (lit "/home/c") 300 1700].
Proof. vm_compute. reflexivity. Qed.

Example discover_without_tmux :
  (discoverClaudeSessions (λ _ w, (None, w)) (λ w, (1700, w)) ()).1 = [].
Proof. reflexivity. Qed.

Lemma discoverClaudeSessions_spec_witness :
  tmuxSession <$> (discoverClaudeSessions test_world (λ w, (1700, w)) ()).1
    `sublist_of` [lit "claude"; lit "dev"; lit "codex"].
Proof.
  refine (proj2 (proj2 (proj1 (proj2
            (discoverClaudeSessions_spec test_world (λ w, (1700, w)) ()))
            (lit "claude" ++ NEWLINE :: lit "dev" ++ NEWLINE :: lit "codex"
             ++ [NEWLINE]) () _))).
  vm_compute. reflexivity.
Defined.

(** ** Further properties of the line parser *)

Lemma split_app_sep sep a b :
  split sep (a ++ sep :: b) = split sep a ++ split sep b.
Proof.
  induction a as [|c a IH]; simpl.
  - by rewrite N.eqb_refl.
  - rewrite IH. destruct (N.eqb_spec c sep); [done|].
    pose proof (split_nonempty sep a).
    by destruct (split sep a).
Qed.

Lemma split_no_sep_id sep s : sep ∉ s → split sep s = [s].
Proof.
  induction s as [|c s IH]; intros Hs; [done|]. simpl.
  apply not_elem_of_cons in Hs as [Hc Hs].
  destruct (N.eqb_spec c sep); [congruence|]. by rewrite IH.
Qed.

Lemma drop_ws_all ws : Forall (λ c, is_ws c = true) ws → drop_ws ws = [].
Proof. induction 1 as [|c ws Hc _ IH]; simpl; [done|]. by rewrite Hc. Qed.

Lemma drop_ws_app_all ws s :
  Forall (λ c, is_ws c = true) ws → drop_ws (ws ++ s) = drop_ws s.
Proof. induction 1 as [|c ws Hc _ IH]; simpl; [done|]. by rewrite Hc. Qed.

Lemma drop_ws_app_keep s t :
  drop_ws s ≠ [] → drop_ws (s ++ t) = drop_ws s ++ t.
Proof.
  induction s as [|c s IH]; simpl; [done|].
  destruct (is_ws c); [apply IH | done].
Qed.

Lemma trim_surrounding pre s post :
  Forall (λ c, is_ws c = true) pre → Forall (λ c, is_ws c = true) post →
  trim (pre ++ s ++ post) = trim s.
Proof.
  intros Hpre Hpost. unfold trim. rewrite drop_ws_app_all by done.
  assert (Hrev : Forall (λ c, is_ws c = true) (reverse post))
    by (by apply Forall_reverse).
  destruct (drop_ws s) as [|c s'] eqn:E.
  - assert (Hall : Forall (λ c, is_ws c = true) s).
    { clear -E. induction s as [|c s IH]; [done|]. simpl in E.
      destruct (is_ws c) eqn:Hc; [|done]. constructor; auto. }
    by rewrite (drop_ws_all (s ++ post)) by (by apply Forall_app).
  - rewrite drop_ws_app_keep by (by rewrite E). rewrite E.
    rewrite reverse_app. by rewrite drop_ws_app_all.
Qed.

(** X18.  White space around a line, a carriage return left by a CRLF line
    end for one, does not change what [parsePaneLine] makes of it. *)
Theorem parsePaneLine_surrounding pre line post :
  Forall (λ c, is_ws c = true) pre → Forall (λ c, is_ws c = true) post →
  parsePaneLine (pre ++ line ++ post) = parsePaneLine line.
Proof.
  intros Hpre Hpost. unfold parsePaneLine. by rewrite trim_surrounding.
Qed.

Lemma parsePaneLine_surrounding_witness :
  parsePaneLine (lit "  " ++ lit "7 /srv codex" ++ [13%N])
  = parsePaneLine (lit "7 /srv codex").
Proof.
  apply parsePaneLine_surrounding; repeat constructor.
Defined.

Lemma trim_id s :
  (∀ c, head s = Some c → is_ws c = false) →
  (∀ c, last s = Some c → is_ws c = false) →
  trim s = s.
Proof.
  intros Hh Hl. unfold trim.
  assert (Hd : ∀ t, (∀ c, head t = Some c → is_ws c = false) → drop_ws t = t).
  { intros [|c t] H; [done|]. simpl. by rewrite (H c). }
  rewrite (Hd s) by done. rewrite Hd; [apply reverse_involutive|].
  intros c Hc. apply Hl. by rewrite <- head_reverse.
Qed.

Lemma parse_formatted_line tok dir cmd n :
  parseInt tok = Some n →
  Forall (λ c, is_ws c = false) tok →
  cmd ≠ [] → Forall (λ c, is_ws c = false) cmd →
  dir ≠ [] →
  parsePaneLine (tok ++ SPACE :: dir ++ SPACE :: cmd)
  = Some (mkPane n dir cmd).
Proof.
  intros Hn Htok Hcmd0 Hcmd Hdir.
  assert (Htok0 : tok ≠ []) by (by intros ->).
  assert (Hsp : ∀ s, Forall (λ c, is_ws c = false) s → SPACE ∉ s).
  { intros s Hs Hin. rewrite Forall_forall in Hs.
    specialize (Hs _ Hin). done. }
  unfold parsePaneLine.
  rewrite trim_id.
  2: { destruct tok as [|c tok]; [done|]. simpl. intros ? [= <-].
       by apply Forall_cons in Htok as [? _]. }
  2: { intros c. rewrite app_comm_cons, !last_app, last_cons.
       destruct cmd as [|c0 cmd] using rev_ind; [done|].
       rewrite last_snoc. intros [= <-].
       by apply Forall_app in Hcmd as [_ [? _]%Forall_cons]. }
  rewrite split_app_sep, split_app_sep.
  rewrite (split_no_sep_id _ tok), (split_no_sep_id _ cmd) by auto.
  pose proof (split_nonempty SPACE dir) as Hne.
  set (mid := split SPACE dir) in *.
  assert (Hlen : (3 ≤ length ([tok] ++ mid ++ [cmd]))%nat).
  { rewrite !length_app. simpl. destruct mid; [done | simpl; lia]. }
  rewrite decide_False by lia.
  change (nth 0 ([tok] ++ mid ++ [cmd]) []) with tok. rewrite Hn.
  assert (Hslice : slice_1_m1 ([tok] ++ mid ++ [cmd]) = mid).
  { unfold slice_1_m1. simpl drop. rewrite drop_0.
    replace (length ([tok] ++ mid ++ [cmd]) - 1 - 1)%nat with (length mid)
      by (rewrite !length_app; simpl; lia).
    by rewrite take_app_length. }
  rewrite Hslice. subst mid. rewrite join_split.
  destruct dir as [|c dir]; [done|].
  do 2 f_equal.
  replace (length ([tok] ++ split SPACE (c :: dir) ++ [cmd]) - 1)%nat
    with (length ([tok] ++ split SPACE (c :: dir)))
    by (rewrite !length_app; simpl; lia).
  rewrite app_assoc. rewrite app_nth2 by lia. by rewrite Nat.sub_diag.
Qed.

(** X19.  [parsePaneLine] reads back the format it is written for: for a
    PID token and a command without white space, and any non-empty working
    directory (spaces included, wherever they are), the line
    [PID CWD COMMAND] parses to that working directory, that command and
    the integer value of the PID token. *)
Theorem parsePaneLine_format tok dir cmd n :
  parseInt tok = Some n →
  Forall (λ c, is_ws c = false) tok →
  cmd ≠ [] → Forall (λ c, is_ws c = false) cmd →
  dir ≠ [] →
  parsePaneLine (tok ++ SPACE :: dir ++ SPACE :: cmd)
  = Some (mkPane n dir cmd).
Proof. apply parse_formatted_line. Qed.

Lemma parsePaneLine_format_witness :
  parsePaneLine (lit "4242" ++ SPACE :: lit "/home/my project" ++ SPACE
                 :: lit "claude")
  = Some (mkPane 4242 (lit "/home/my project") (lit "claude")).
Proof.
  apply parsePaneLine_format.
  - vm_compute. reflexivity.
  - repeat constructor.
  - discriminate.
  - repeat constructor.
  - discriminate.
Defined.

Lemma digits_value_app acc ds rest :
  Forall (λ c, is_digit c = true) ds →
  (∀ c, head rest = Some c → is_digit c = false) →
  digits_value acc (ds ++ rest) = digits_value acc ds.
Proof.
  intros Hds Hrest. revert acc.
  induction Hds as [|d ds Hd _ IH]; intros acc; simpl.
  - destruct rest as [|c rest]; [done|]. simpl. by rewrite (Hrest c).
  - by rewrite Hd, IH.
Qed.

Lemma parseInt_digits_prefix ds rest :
  ds ≠ [] → Forall (λ c, is_digit c = true) ds →
  (∀ c, head rest = Some c → is_digit c = false) →
  parseInt (ds ++ rest) = Some (digits_value 0 ds)
  ∧ parseInt ds = Some (digits_value 0 ds).
Proof.
  intros Hne Hds Hrest.
  destruct ds as [|d ds]; [done|].
  apply Forall_cons in Hds as Hd. destruct Hd as [Hd Hds'].
  assert (Hd' : is_ws d = false ∧ d ≠ 45%N ∧ d ≠ 43%N).
  { unfold is_digit in Hd. apply andb_true_iff in Hd as [H1 H2].
    apply N.leb_le in H1, H2. unfold is_ws.
    split_and!; [|lia|lia].
    repeat (apply orb_false_iff; split);
      try (apply N.eqb_neq; lia);
      apply andb_false_iff; ((left; apply N.leb_gt; lia)
                             || (right; apply N.leb_gt; lia)). }
  destruct Hd' as (Hws & H45 & H43).
  assert (Hshape : ∀ t, parseInt (d :: t) = Some (1 * digits_value 0 (d :: t))).
  { intros t. unfold parseInt. simpl drop_ws. rewrite Hws.
    destruct d as [|dp]; [by rewrite Hd|].
    repeat (destruct dp as [dp|dp|]; try done); by rewrite Hd. }
  split.
  - change ((d :: ds) ++ rest) with (d :: (ds ++ rest)).
    rewrite Hshape, Z.mul_1_l.
    change (d :: ds ++ rest) with ((d :: ds) ++ rest).
    by rewrite digits_value_app.
  - by rewrite Hshape, Z.mul_1_l.
Qed.

Lemma is_digit_not_ws c : is_digit c = true → is_ws c = false.
Proof.
  unfold is_digit, is_ws. intros [H1 H2]%andb_true_iff.
  apply N.leb_le in H1, H2.
  repeat (apply orb_false_iff; split);
    try (apply N.eqb_neq; lia);
    apply andb_false_iff; ((left; apply N.leb_gt; lia)
                           || (right; apply N.leb_gt; lia)).
Qed.

(** X20.  The PID is read leniently: when the first token of a line is a
    run of decimal digits followed by other characters (no white space
    among them, the first of them not a digit), the line is accepted and the
    PID is the value of the digits alone. *)
Theorem parsePaneLine_lenient_pid ds junk dir cmd :
  ds ≠ [] → Forall (λ c, is_digit c = true) ds →
  (∀ c, head junk = Some c → is_digit c = false) →
  Forall (λ c, is_ws c = false) junk →
  cmd ≠ [] → Forall (λ c, is_ws c = false) cmd →
  dir ≠ [] →
  parsePaneLine ((ds ++ junk) ++ SPACE :: dir ++ SPACE :: cmd)
  = Some (mkPane (digits_value 0 ds) dir cmd).
Proof.
  intros Hne Hds Hjunk Hws Hcmd0 Hcmd Hdir.
  apply parse_formatted_line; try done.
  - by apply parseInt_digits_prefix.
  - apply Forall_app. split; [|done].
    eapply Forall_impl; [exact Hds|]. apply is_digit_not_ws.
Qed.

Lemma parsePaneLine_lenient_pid_witness :
  parsePaneLine ((lit "123" ++ lit "abc") ++ SPACE :: lit "/x" ++ SPACE
                 :: lit "claude")
  = Some (mkPane (digits_value 0 (lit "123")) (lit "/x") (lit "claude")).
Proof.
  apply parsePaneLine_lenient_pid.
  - discriminate.
  - repeat constructor.
  - intros c [= <-]. reflexivity.
  - repeat constructor.
  - discriminate.
  - repeat constructor.
  - discriminate.
Defined.

Lemma parsePaneLine_cwd_nonempty line r :
  parsePaneLine line = Some r → cwd r ≠ [].
Proof.
  unfold parsePaneLine. case_decide; [done|].
  destruct (parseInt _); [|done].
  destruct (join SPACE _) eqn:E; [done|]. by intros [= <-].
Qed.

Section world_more.

Context {World : Type}.
Variable execAsync : list N → World → option (list N) * World.
Variable date_now : World → Z * World.

Lemma scan_lines_found name lines w found w' :
  scan_lines date_now name lines w = (Some found, w') →
  tmuxSession found = name
  ∧ is_agent_command (d_command found) = true
  ∧ d_cwd found ≠ [].
Proof.
  induction lines as [|line lines IH]; simpl; [done|].
  destruct (parsePaneLine line) as [parsed|] eqn:Hp; [|done].
  destruct (is_agent_command (command parsed)) eqn:Ha; [|done].
  destruct (date_now w). intros [= <- _]. simpl.
  split_and!; [done | done |].
  by apply (parsePaneLine_cwd_nonempty line).
Qed.

(** The sessions that a pass may return: a recognised command, a working
    directory that is not empty, a group name that is not empty. *)
Lemma visit_session_found acc w name d :
  d ∈ (visit_session execAsync date_now (acc, w) name).1 →
  d ∈ acc
  ∨ (tmuxSession d = name
     ∧ is_agent_command (d_command d) = true ∧ d_cwd d ≠ []).
Proof.
  unfold visit_session.
  destruct (execAsync (list_panes_command name) w) as [[stdout|] w1];
    simpl; [|by left].
  destruct (scan_lines date_now name _ w1) as [[found|] w2] eqn:E;
    simpl; [|by left].
  intros [Hd|Hd%list_elem_of_singleton]%elem_of_app; [by left|].
  subst d. right. by apply (scan_lines_found _ _ _ _ _ E).
Qed.

Lemma foldl_visit_found names acc w d :
  d ∈ (foldl (visit_session execAsync date_now) (acc, w) names).1 →
  d ∈ acc
  ∨ (tmuxSession d ∈ names
     ∧ is_agent_command (d_command d) = true ∧ d_cwd d ≠ []).
Proof.
  revert acc w. induction names as [|name names IH]; intros acc w.
  - simpl. by left.
  - cbn [foldl].
    destruct (visit_session execAsync date_now (acc, w) name)
      as [acc1 w1] eqn:E.
    intros [Hd|(Hn & Ha & Hc)]%IH.
    + assert (Hd' : d ∈ (visit_session execAsync date_now (acc, w) name).1)
        by (by rewrite E).
      apply visit_session_found in Hd' as [?|(<- & Ha & Hc)]; [by left|].
      right. split_and!; [left | done | done].
    + right. split_and!; [by right | done | done].
Qed.

(** X21.  Every session that a discovery pass returns has the command
    [claude] or [codex], a working directory that is not empty and a group
    name that is not empty; and the pass returns at most one session per
    listed group name. *)
Theorem discovered_sessions_valid w d :
  d ∈ (discoverClaudeSessions execAsync date_now w).1 →
  (d_command d = lit "claude" ∨ d_command d = lit "codex")
  ∧ d_cwd d ≠ []
  ∧ tmuxSession d ≠ []
  ∧ ∃ stdout w1,
      execAsync list_sessions_command w = (Some stdout, w1)
      ∧ tmuxSession d ∈ session_names stdout
      ∧ (length (discoverClaudeSessions execAsync date_now w).1
         ≤ length (session_names stdout))%nat.
Proof.
  unfold discoverClaudeSessions.
  destruct (execAsync list_sessions_command w) as [[stdout|] w1] eqn:E;
    simpl; [|by intros ?%not_elem_of_nil].
  intros [Hd|(Hn & Ha & Hc)]%foldl_visit_found;
    [by apply not_elem_of_nil in Hd|].
  split_and!.
  - by apply is_agent_command_spec.
  - done.
  - unfold session_names in Hn. apply list_elem_of_filter in Hn as [Hlen _].
    intros E'. rewrite E' in Hlen. simpl in Hlen. lia.
  - exists stdout, w1. split_and!; [done | done |].
    destruct (foldl_visit_sublist execAsync date_now (session_names stdout)
                [] w1) as (l & Hl & Hsub).
    apply (f_equal length) in Hl. rewrite length_fmap in Hl. simpl in Hl.
    rewrite Hl. by apply sublist_length.
Qed.

End world_more.

Lemma discovered_sessions_valid_witness :
  d_cwd (mkDiscovered (lit "codex") (lit "codex") (lit "/home/c") 300 1700)
  ≠ [].
Proof.
  refine (proj1 (proj2 (discovered_sessions_valid test_world
                          (λ w, (1700, w)) ()
                          (mkDiscovered (lit "codex") (lit "codex")
                                        (lit "/home/c") 300 1700) _))).
  vm_compute. right. left.
Defined.

End DiscoveryFacts.

(* ===================================================================== *)
(** * Properties of the metrics panel *)
(* ===================================================================== *)

Module MetricsPanelFacts.
Import Metrics MetricsPanel.

(** X22.  [formatDuration] shows the whole seconds of a duration in base
    60: hours and minutes from one hour on (the seconds are dropped),
    minutes and seconds from one minute on, seconds alone below; minutes
    and seconds shown are below 60.  A negative duration, like any duration
    under a second, shows as [0s]. *)
Theorem formatDuration_spec ms :
  let total := Z.max 0 (ms `div` 1000) in
  (∃ h m s,
     0 ≤ h ∧ 0 ≤ m < 60 ∧ 0 ≤ s < 60
     ∧ total = 3600 * h + 60 * m + s
     ∧ formatDuration ms
       = if decide (3600 ≤ total) then
           pretty h +:+ "h " +:+ pretty m +:+ "m"
         else if decide (60 ≤ total) then
           pretty m +:+ "m " +:+ pretty s +:+ "s"
         else pretty s +:+ "s")
  ∧ (ms < 1000 → formatDuration ms = "0s").
Proof.
  intros total. unfold formatDuration. fold total.
  assert (Ht : 0 ≤ total) by (subst total; lia).
  pose proof (Z.div_mod total 3600 ltac:(lia)) as H1.
  pose proof (Z.mod_pos_bound total 3600 ltac:(lia)) as H2.
  pose proof (Z.div_mod (total `mod` 3600) 60 ltac:(lia)) as H3.
  pose proof (Z.mod_pos_bound (total `mod` 3600) 60 ltac:(lia)) as H4.
  pose proof (Z.div_mod total 60 ltac:(lia)) as H5.
  pose proof (Z.mod_pos_bound total 60 ltac:(lia)) as H6.
  assert (Hs : total `mod` 60 = (total `mod` 3600) `mod` 60).
  { symmetry.
    apply (Z.mod_unique_pos total 60
             (60 * (total `div` 3600) + (total `mod` 3600) `div` 60));
      lia. }
  assert (Hh : 0 ≤ total `div` 3600) by (apply Z.div_pos; lia).
  assert (Hm : 0 ≤ (total `mod` 3600) `div` 60) by (apply Z.div_pos; lia).
  split.
  - exists (total `div` 3600), ((total `mod` 3600) `div` 60), (total `mod` 60).
    split_and!; try lia.
    repeat case_decide; try done; lia.
  - intros Hms.
    assert (total = 0) as ->.
    { subst total. assert (ms `div` 1000 ≤ 0); [|lia].
      assert (ms `div` 1000 < 1); [|lia].
      apply Z.div_lt_upper_bound; lia. }
    done.
Qed.

Lemma formatDuration_spec_witness : formatDuration (-5) = "0s".
Proof. apply (proj2 (formatDuration_spec (-5))). lia. Defined.

Example formatDuration_examples :
  formatDuration 59999 = "59s"
  ∧ formatDuration 3725000 = "1h 2m"
  ∧ formatDuration 125000 = "2m 5s".
Proof. by vm_compute. Qed.

Lemma js_clamp_id x :
  (0 <= x)%Q → (x <= 100)%Q → js_max 0 (js_min 100 x) == x.
Proof.
  intros H0 H100. unfold js_max, js_min.
  destruct (Qle_bool 100 x) eqn:E1.
  - apply Qle_bool_iff in E1.
    destruct (Qle_bool 0 100) eqn:E2; [lra|].
    exfalso. apply not_true_iff_false in E2. apply E2, Qle_bool_iff. lra.
  - destruct (Qle_bool 0 x) eqn:E2; [lra|].
    apply not_true_iff_false in E2. exfalso. by apply E2, Qle_bool_iff.
Qed.

Lemma getErrorColor_comp x y : x == y → getErrorColor x = getErrorColor y.
Proof.
  intros H. unfold getErrorColor.
  assert (Hb : ∀ k, Qle_bool x k = Qle_bool y k).
  { intros k. destruct (Qle_bool y k) eqn:E.
    - apply Qle_bool_iff. apply Qle_bool_iff in E. lra.
    - apply not_true_iff_false. intros E'%Qle_bool_iff.
      apply not_true_iff_false in E. apply E, Qle_bool_iff. lra. }
  by rewrite !Hb.
Qed.

Lemma errorRate_bounds events sid now :
  (0 <= errorRate (getMetrics now (record_all events ∅) sid))%Q
  ∧ (errorRate (getMetrics now (record_all events ∅) sid) <= 100)%Q.
Proof.
  unfold getMetrics.
  pose proof (MetricsFacts.session_after events sid) as H.
  destruct (record_all events ∅ !! sid) as [s|]; [|done].
  destruct H as (Hne & _ & _ & _ & He & Ht). simpl.
  pose proof (MetricsFacts.failures_length (calls_of sid events)).
  assert (0 < s_totalCount s)
    by (rewrite Ht; destruct (calls_of sid events); [done | simpl; lia]).
  rewrite decide_True by done. apply MetricsFacts.rate_bounds; lia.
Qed.

(** X23.  The error bar drawn from the error rate that [getMetrics]
    computes, a percentage between 0 and 100: [formatPercent] takes a rate
    of at most 1 for a fraction and multiplies it by 100.  The bar is
    therefore as wide as the rate when the rate is above 1, and a hundred
    times as wide when it is at most 1; with a rate above 0.1 and at most 1
    the bar has the colour of the highest level, [#ef4444]. *)
Theorem error_bar_of_errorRate events sid now :
  let rate := errorRate (getMetrics now (record_all events ∅) sid) in
  ((rate <= 1)%Q → ((error_bar rate).1 == rate * 100)%Q)
  ∧ (¬ (rate <= 1)%Q → ((error_bar rate).1 == rate)%Q)
  ∧ ((1 # 10 < rate)%Q → (rate <= 1)%Q → (error_bar rate).2 = "#ef4444").
Proof.
  intros rate. destruct (errorRate_bounds events sid now) as [H0 H100].
  fold rate in H0, H100.
  assert (Hle : (rate <= 1)%Q →
            formatPercent_percent rate == (rate * 100)%Q).
  { intros H. unfold formatPercent_percent.
    assert (E : Qle_bool rate 1 = true) by (by apply Qle_bool_iff).
    rewrite E. apply js_clamp_id; lra. }
  assert (Hgt : ¬ (rate <= 1)%Q → formatPercent_percent rate == rate).
  { intros H. unfold formatPercent_percent.
    destruct (Qle_bool rate 1) eqn:E; [by apply Qle_bool_iff in E|].
    by apply js_clamp_id. }
  assert (Hbar : ∀ x, (0 <= x)%Q → (x <= 100)%Q →
            (updateErrorIndicator x).1 == x
            ∧ (updateErrorIndicator x).2 = getErrorColor x).
  { intros x Hx0 Hx100. unfold updateErrorIndicator; simpl.
    split; [by apply js_clamp_id|].
    apply getErrorColor_comp. by apply js_clamp_id. }
  unfold error_bar. split_and!.
  - intros H. specialize (Hle H).
    assert (E : (updateErrorIndicator (formatPercent_percent rate)).1
                == formatPercent_percent rate).
    { apply Hbar; rewrite Hle; lra. }
    by rewrite E.
  - intros H. specialize (Hgt H).
    assert (E : (updateErrorIndicator (formatPercent_percent rate)).1
                == formatPercent_percent rate).
    { apply Hbar; rewrite Hgt; lra. }
    by rewrite E.
  - intros Hlo H. specialize (Hle H).
    destruct (Hbar (formatPercent_percent rate)) as [_ ->];
      [rewrite Hle; lra | rewrite Hle; lra |].
    rewrite (getErrorColor_comp _ _ Hle). unfold getErrorColor.
    assert (Hn : ∀ k, (k < rate * 100)%Q → Qle_bool (rate * 100) k = false).
    { intros k Hk. apply not_true_iff_false. intros E%Qle_bool_iff. lra. }
    rewrite !Hn by lra. done.
Qed.

Lemma error_bar_of_errorRate_witness :
  (error_bar
     (errorRate
        (getMetrics 0
           (record_all [(1, "s", mkToolUse "Read" 5 false None None);
                        (2, "s", mkToolUse "Read" 5 true None None);
                        (3, "s", mkToolUse "Read" 5 true None None)]%string ∅)
           "s"))).1
  == errorRate
       (getMetrics 0
          (record_all [(1, "s", mkToolUse "Read" 5 false None None);
                       (2, "s", mkToolUse "Read" 5 true None None);
                       (3, "s", mkToolUse "Read" 5 true None None)]%string ∅)
          "s").
Proof.
  refine (proj1 (proj2 (error_bar_of_errorRate
            [(1, "s", mkToolUse "Read" 5 false None None);
             (2, "s", mkToolUse "Read" 5 true None None);
             (3, "s", mkToolUse "Read" 5 true None None)]%string "s" 0)) _).
  vm_compute. intros H. apply H. reflexivity.
Defined.

End MetricsPanelFacts.

(* ===================================================================== *)
(** * Properties of AgentHierarchy *)
(* ===================================================================== *)

Module HierarchyFacts.
Import Hierarchy.

(** ** Cycles made by [addChild] *)

Lemma addChild_node nowRoot now p c o h :
  nodes (addChild nowRoot now p c o h) !! c
  = Some (mkNode c (Some p) (Some (o_toolUseId o)) (o_description o)
                 (o_subagentType o) now None).
Proof. unfold addChild; simpl. apply lookup_insert_eq. Qed.

(** A node that is its own parent: the walk of [getAncestors] pushes the
    node again at every iteration and never leaves the loop. *)
Lemma ancestors_loop_self h a n :
  nodes h !! a = Some n → truthy_parent n = Some a →
  ∀ fuel acc, ancestors_loop fuel h acc (Some n) = None.
Proof.
  intros Hn Hp. induction fuel as [|fuel IH]; intros acc; [done|].
  simpl. rewrite Hp, Hn. apply IH.
Qed.

(** Two nodes that are each other's parent. *)
Lemma ancestors_loop_pair h a b na nb :
  nodes h !! a = Some na → truthy_parent na = Some b →
  nodes h !! b = Some nb → truthy_parent nb = Some a →
  ∀ fuel acc, ancestors_loop fuel h acc (Some na) = None
              ∧ ancestors_loop fuel h acc (Some nb) = None.
Proof.
  intros Ha Hpa Hb Hpb. induction fuel as [|fuel IH]; intros acc; [done|].
  simpl. rewrite Hpa, Hpb, Ha, Hb. split; apply IH.
Qed.

(** A queue that is refilled by every node taken from it never empties. *)
Lemma descendants_loop_refill h n :
  getChildren h (sessionId n) = [n] →
  ∀ fuel acc queue, queue ≠ [] → Forall (λ m, m = n) queue →
                    descendants_loop fuel h acc queue = None.
Proof.
  intros Hc. induction fuel as [|fuel IH]; intros acc queue Hne Hall; [done|].
  destruct queue as [|m rest]; [done|]. simpl.
  apply Forall_cons in Hall as [-> Hrest]. rewrite Hc.
  apply IH; [by destruct rest | ].
  apply Forall_app. split; [done | by constructor].
Qed.

(** C1, on the code: after the single call [addChild("a", "a", ...)] on a
    new tracker, ["a"] is present and is its own parent.  The first
    iteration of the loop of [getAncestors("a")] pushes the node of ["a"]
    itself, and the loop is never left: [getAncestors("a")] and
    [getDepth("a")] return nothing, with any amount of fuel. *)
Theorem addChild_self_breaks_forest :
  let h := addChild 0 1 "a" "a" opts empty in
  built h
  ∧ has h "a" = true
  ∧ (∃ n, nodes h !! "a" = Some n
          ∧ parentId n = Some "a"
          ∧ ancestors_step h [] (Some n) = inl ([n], Some n))
  ∧ (∀ fuel, getAncestors fuel h "a" = None ∧ getDepth fuel h "a" = None)
  ∧ ¬ (∃ fuel ancestors, getAncestors fuel h "a" = Some ancestors).
Proof.
  intros h.
  assert (Hloop : ∀ fuel, getAncestors fuel h "a" = None).
  { intros fuel. unfold getAncestors.
    rewrite (ancestors_loop_self h "a" _ (addChild_node _ _ _ _ _ _)); done. }
  split_and!.
  - repeat constructor.
  - by vm_compute.
  - eexists. split; [apply addChild_node|]. split; [done|]. by vm_compute.
  - intros fuel. unfold getDepth. by rewrite Hloop.
  - intros (fuel & anc & H). by rewrite Hloop in H.
Qed.

(** After [addChild("a", "b")] and [addChild("b", "a")] the
    two sessions are each other's parent; the state is reachable and the
    walk of [getAncestors] from either of them never ends. *)
Theorem getAncestors_diverges_on_cycle :
  let h := addChild 0 2 "b" "a" opts (addChild 0 1 "a" "b" opts empty) in
  reachable h
  ∧ (parentId <$> nodes h !! "a") = Some (Some "b")
  ∧ (parentId <$> nodes h !! "b") = Some (Some "a")
  ∧ (∀ fuel, getAncestors fuel h "a" = None ∧ getAncestors fuel h "b" = None)
  ∧ ¬ (∃ fuel ancestors, getAncestors fuel h "a" = Some ancestors).
Proof.
  intros h.
  assert (Hloop : ∀ fuel, getAncestors fuel h "a" = None
                          ∧ getAncestors fuel h "b" = None);
    [|split_and!].
  - intros fuel. unfold getAncestors.
    assert (Ha : nodes h !! "a"
                 = Some (mkNode "a" (Some "b") (Some "toolu_1") None None 2 None))
      by (by vm_compute).
    assert (Hb : nodes h !! "b"
                 = Some (mkNode "b" (Some "a") (Some "toolu_1") None None 1 None))
      by (by vm_compute).
    rewrite Ha, Hb.
    by apply (ancestors_loop_pair h "a" "b").
  - repeat constructor.
  - by vm_compute.
  - by vm_compute.
  - done.
  - intros (fuel & anc & H). destruct (Hloop fuel) as [Ha _]. by rewrite Ha in H.
Qed.

(** In the reachable state left by
    [addChild("a", "a", ...)], the queue of [getDescendants("a")] is refilled
    with the node of ["a"] at every iteration, so that neither
    [getDescendants("a")] nor [remove("a")] returns. *)
Theorem remove_diverges_on_cycle :
  let h := addChild 0 1 "a" "a" opts empty in
  reachable h
  ∧ has h "a" = true
  ∧ (∀ fuel, getDescendants fuel h "a" = None ∧ remove fuel "a" h = None)
  ∧ ¬ (∃ fuel h', remove fuel "a" h = Some h').
Proof.
  intros h.
  assert (Hd : ∀ fuel, getDescendants fuel h "a" = None).
  { intros fuel. unfold getDescendants.
    set (n := mkNode "a" (Some "a") (Some "toolu_1") None None 1 None).
    assert (Hc : getChildren h "a" = [n]) by (by vm_compute).
    rewrite Hc. apply (descendants_loop_refill h n); [done | done |].
    by repeat constructor. }
  split_and!.
  - repeat constructor.
  - by vm_compute.
  - intros fuel. unfold remove. by rewrite Hd.
  - intros (fuel & h' & H). unfold remove in H. by rewrite Hd in H.
Qed.

(** ** Coherence of the states built with fresh children *)

Lemma has_true h x : has h x = true ↔ is_Some (nodes h !! x).
Proof. unfold has. apply bool_decide_eq_true. Qed.

Lemma has_false h x : has h x = false ↔ nodes h !! x = None.
Proof.
  unfold has. rewrite bool_decide_eq_false. by rewrite eq_None_not_Some.
Qed.

Lemma wf_empty : wf empty.
Proof.
  split.
  - intros x n H. simpl in H. by rewrite ?lookup_empty in H.
  - intros p ids H. simpl in H. by rewrite ?lookup_empty in H.
  - intros x n p H. simpl in H. by rewrite ?lookup_empty in H.
  - exists (λ _, 0%nat), 0%nat. split; [done|].
    intros p ids c H. simpl in H. by rewrite ?lookup_empty in H.
Qed.

(** Giving a new node a rank above all others keeps the index ranked,
    provided the new node has no children set. *)
Lemma ranked_new_node h rank bound x n :
  ranked h rank bound →
  childrenMap h !! x = None →
  ranked (mkH (<[x := n]> (nodes h)) (childrenMap h))
         (λ y, if decide (y = x) then S bound else rank y) (S bound).
Proof.
  intros [Hb Hr] Hx. split; simpl.
  - intros y. case_decide; [done|]. specialize (Hb y). lia.
  - intros p ids c Hp Hc Hlive.
    destruct (decide (p = x)) as [->|Hpx]; [congruence|].
    destruct (decide (c = x)) as [->|Hcx].
    + specialize (Hb p). lia.
    + rewrite lookup_insert_ne in Hlive by done. by apply (Hr p ids c).
Qed.

Lemma wf_addRoot now x h : wf h → wf (addRoot now x h).
Proof.
  intros Hwf. unfold addRoot.
  destruct (has h x) eqn:Hx; [done|].
  apply has_false in Hx.
  assert (Hcm : childrenMap h !! x = None).
  { destruct (childrenMap h !! x) as [ids|] eqn:E; [|done].
    apply (wf_index h Hwf) in E. rewrite Hx in E. by destruct E. }
  split; simpl.
  - intros y n. destruct (decide (x = y)) as [->|Hne].
    + rewrite lookup_insert_eq. by intros [= <-].
    + rewrite lookup_insert_ne by done. apply (wf_key h Hwf).
  - intros p ids Hp. apply (wf_index h Hwf) in Hp.
    destruct (decide (x = p)) as [->|Hne].
    + rewrite lookup_insert_eq. eauto.
    + by rewrite lookup_insert_ne.
  - intros y n p. destruct (decide (x = y)) as [->|Hne].
    + rewrite lookup_insert_eq. by intros [= <-].
    + rewrite lookup_insert_ne by done. intros Hy Hpar.
      destruct (wf_parent h Hwf y n p Hy Hpar) as [Hlive Hids].
      split; [|done].
      destruct (decide (x = p)) as [->|Hne'].
      * rewrite lookup_insert_eq. eauto.
      * by rewrite lookup_insert_ne.
  - destruct (wf_ranked h Hwf) as (rank & bound & Hr).
    eexists _, _. by apply (ranked_new_node h rank bound x).
Qed.

Lemma addRoot_lookup_ne now x y h :
  x ≠ y → nodes (addRoot now x h) !! y = nodes h !! y.
Proof.
  intros Hne. unfold addRoot. destruct (has h x); [done|].
  simpl. by rewrite lookup_insert_ne.
Qed.

Lemma addRoot_has now x h : is_Some (nodes (addRoot now x h) !! x).
Proof.
  unfold addRoot. destruct (has h x) eqn:E.
  - by apply has_true.
  - simpl. rewrite lookup_insert_eq. eauto.
Qed.

Lemma elem_of_set_add x y ids : x ∈ set_add y ids ↔ x = y ∨ x ∈ ids.
Proof.
  unfold set_add. case_decide.
  - split; [intros ?; by right | intros [->|?]; done].
  - rewrite elem_of_app, list_elem_of_singleton. tauto.
Qed.

Lemma elem_of_set_delete x y ids : x ∈ set_delete y ids ↔ x ≠ y ∧ x ∈ ids.
Proof. unfold set_delete. by rewrite list_elem_of_filter. Qed.

(** The second half of [addChild], on a state that has the parent. *)
Lemma wf_attach now p c o h :
  wf h → is_Some (nodes h !! p) → nodes h !! c = None →
  wf (mkH (<[c := mkNode c (Some p) (Some (o_toolUseId o)) (o_description o)
                         (o_subagentType o) now None]> (nodes h))
          (alter (set_add c) p
             (match childrenMap h !! p with
              | Some _ => childrenMap h
              | None => <[p := []]> (childrenMap h)
              end))).
Proof.
  intros Hwf Hp Hc.
  assert (Hpc : p ≠ c) by (intros ->; rewrite Hc in Hp; by destruct Hp).
  set (cm2 := match childrenMap h !! p with
              | Some _ => childrenMap h
              | None => <[p := []]> (childrenMap h)
              end).
  assert (Hcm2 : ∀ q ids, alter (set_add c) p cm2 !! q = Some ids →
            (q = p ∧ ∃ ids0, ids = set_add c ids0
                   ∧ ∀ y, y ∈ ids0 → ∃ ids1, childrenMap h !! p = Some ids1
                                             ∧ y ∈ ids1)
            ∨ (q ≠ p ∧ childrenMap h !! q = Some ids)).
  { intros q ids. destruct (decide (q = p)) as [->|Hq].
    - rewrite lookup_alter_eq. subst cm2.
      destruct (childrenMap h !! p) as [ids0|] eqn:E.
      + rewrite E; simpl. intros [= <-]. left. split; [done|].
        exists ids0. split; [done|]. eauto.
      + rewrite lookup_insert_eq; simpl. intros [= <-]. left. split; [done|].
        exists []. split; [done|]. intros y Hy. by apply not_elem_of_nil in Hy.
    - rewrite lookup_alter_ne by done. subst cm2.
      destruct (childrenMap h !! p) eqn:E; [by right|].
      rewrite lookup_insert_ne by done. by right. }
  assert (Hcmc : childrenMap h !! c = None).
  { destruct (childrenMap h !! c) as [ids|] eqn:E; [|done].
    apply (wf_index h Hwf) in E. rewrite Hc in E. by destruct E. }
  split; simpl.
  - intros y n. destruct (decide (c = y)) as [->|Hne].
    + rewrite lookup_insert_eq. by intros [= <-].
    + rewrite lookup_insert_ne by done. apply (wf_key h Hwf).
  - intros q ids Hq. apply Hcm2 in Hq as [[-> _]|[Hqp Hq]].
    + by rewrite lookup_insert_ne.
    + apply (wf_index h Hwf) in Hq.
      destruct (decide (c = q)) as [->|Hne]; [by rewrite Hc in Hq; destruct Hq|].
      by rewrite lookup_insert_ne.
  - intros y n q. destruct (decide (c = y)) as [->|Hne].
    + rewrite lookup_insert_eq. intros [= <-]; simpl. intros [= <-].
      split; [by rewrite lookup_insert_ne|].
      rewrite lookup_alter_eq. subst cm2.
      destruct (childrenMap h !! p) as [ids0|] eqn:E.
      * rewrite E; simpl. eexists. split; [done|]. apply elem_of_set_add. by left.
      * rewrite lookup_insert_eq; simpl. eexists. split; [done|].
        apply elem_of_set_add. by left.
    + rewrite lookup_insert_ne by done. intros Hy Hpar.
      destruct (wf_parent h Hwf y n q Hy Hpar) as [Hlive (ids & Hids & Hin)].
      split.
      * destruct (decide (c = q)) as [->|Hne']; [by rewrite Hc in Hlive; destruct Hlive|].
        by rewrite lookup_insert_ne.
      * destruct (decide (q = p)) as [->|Hq].
        -- rewrite lookup_alter_eq. subst cm2.
           destruct (childrenMap h !! p) as [ids0|] eqn:E; [|done].
           rewrite E; simpl. injection Hids as ->.
           eexists. split; [done|]. apply elem_of_set_add. by right.
        -- rewrite lookup_alter_ne by done. subst cm2.
           destruct (childrenMap h !! p) eqn:E; [eauto|].
           rewrite lookup_insert_ne by done. eauto.
  - destruct (wf_ranked h Hwf) as (rank & bound & Hb & Hr).
    exists (λ y, if decide (y = c) then S bound else rank y), (S bound).
    split; simpl.
    + intros y. case_decide; [done|]. specialize (Hb y). lia.
    + intros q ids y Hq Hy Hlive.
      assert (Hqc : q ≠ c).
      { apply Hcm2 in Hq as [[-> _]|[_ Hq]]; [done|]. intros ->. congruence. }
      rewrite (decide_False (P := q = c)) by done.
      destruct (decide (y = c)) as [->|Hyc].
      { specialize (Hb q). lia. }
      rewrite lookup_insert_ne in Hlive by done.
      apply Hcm2 in Hq as [[-> (ids0 & -> & Hsub)]|[_ Hq]].
      * apply elem_of_set_add in Hy as [->|Hy]; [done|].
        destruct (Hsub y Hy) as (ids1 & Hids1 & Hy1).
        by apply (Hr p ids1 y).
      * by apply (Hr q ids y).
Qed.

Lemma wf_addChild nowRoot now p c o h :
  wf h → nodes h !! c = None → c ≠ p →
  wf (addChild nowRoot now p c o h).
Proof.
  intros Hwf Hc Hcp. unfold addChild.
  destruct (has h p) eqn:Hp.
  - apply has_true in Hp. by apply wf_attach.
  - apply wf_attach.
    + by apply wf_addRoot.
    + apply addRoot_has.
    + by rewrite addRoot_lookup_ne.
Qed.

Lemma wf_markCompleted now x h : wf h → wf (markCompleted now x h).
Proof.
  intros Hwf.
  assert (Hlk : ∀ y n, nodes (markCompleted now x h) !! y = Some n →
            ∃ n0, nodes h !! y = Some n0 ∧ sessionId n = sessionId n0
                  ∧ parentId n = parentId n0).
  { intros y n. unfold markCompleted; simpl.
    destruct (decide (x = y)) as [->|Hne].
    - rewrite lookup_alter_eq. destruct (nodes h !! y) as [n0|]; [|done].
      simpl. intros [= <-]. eauto.
    - rewrite lookup_alter_ne by done. eauto. }
  assert (Hlive : ∀ y, is_Some (nodes h !! y) →
            is_Some (nodes (markCompleted now x h) !! y)).
  { intros y [n0 Hy]. unfold markCompleted; simpl.
    destruct (decide (x = y)) as [->|Hne].
    - rewrite lookup_alter_eq, Hy. simpl. eauto.
    - rewrite lookup_alter_ne by done. eauto. }
  split.
  - intros y n Hy. destruct (Hlk y n Hy) as (n0 & Hn0 & -> & _).
    by apply (wf_key h Hwf).
  - intros p ids Hp. apply Hlive. by apply (wf_index h Hwf p ids).
  - intros y n p Hy Hpar. destruct (Hlk y n Hy) as (n0 & Hn0 & _ & Hpp).
    rewrite Hpp in Hpar.
    destruct (wf_parent h Hwf y n0 p Hn0 Hpar) as [Hl Hids].
    split; [by apply Hlive | done].
  - destruct (wf_ranked h Hwf) as (rank & bound & Hb & Hr).
    exists rank, bound. split; [done|].
    intros p ids c Hp Hc [n Hn]. destruct (Hlk c n Hn) as (n0 & Hn0 & _).
    apply (Hr p ids c); eauto.
Qed.

(** ** The walk to the root *)

Lemma ancestors_loop_more fuel fuel' h acc cur r :
  ancestors_loop fuel h acc cur = Some r → (fuel ≤ fuel')%nat →
  ancestors_loop fuel' h acc cur = Some r.
Proof.
  revert fuel' acc cur. induction fuel as [|fuel IH]; intros fuel' acc cur; [done|].
  intros H Hle. destruct fuel' as [|fuel']; [lia|]. simpl in *.
  destruct (ancestors_step h acc cur) as [[acc' cur']|res]; [|done].
  apply IH; [done | lia].
Qed.

Lemma ancestors_loop_S fuel h acc cur :
  ancestors_loop (S fuel) h acc cur
  = match ancestors_step h acc cur with
    | inr result => Some result
    | inl (acc', cur') => ancestors_loop fuel h acc' cur'
    end.
Proof. reflexivity. Qed.

Lemma parent_rank_lt h rank bound n p :
  wf h → ranked h rank bound →
  nodes h !! sessionId n = Some n → truthy_parent n = Some p →
  (rank p < rank (sessionId n))%nat.
Proof.
  intros Hwf [_ Hr] Hn Hp. unfold truthy_parent in Hp.
  destruct (parentId n) as [q|] eqn:Hq; [|done].
  destruct (truthy_str q); [|done]. injection Hp as ->.
  destruct (wf_parent h Hwf _ n p Hn Hq) as [_ (ids & Hids & Hin)].
  apply (Hr p ids); eauto.
Qed.

Lemma ancestors_loop_ranked h rank bound :
  wf h → ranked h rank bound →
  ∀ k n acc,
    nodes h !! sessionId n = Some n → (rank (sessionId n) ≤ k)%nat →
    ∃ anc, ancestors_loop (S k) h acc (Some n) = Some (acc ++ anc)
           ∧ ancestry h n anc
           ∧ Forall (λ a, (rank (sessionId a) < rank (sessionId n))%nat) anc.
Proof.
  intros Hwf Hr. induction k as [|k IH]; intros n acc Hn Hk.
  - exists []. simpl.
    destruct (truthy_parent n) as [p|] eqn:Hp.
    + pose proof (parent_rank_lt h rank bound n p Hwf Hr Hn Hp). lia.
    + rewrite app_nil_r. split_and!; [done | by constructor | done].
  - rewrite ancestors_loop_S. unfold ancestors_step.
    destruct (truthy_parent n) as [p|] eqn:Hp.
    2: { exists []. rewrite app_nil_r. split_and!; [done | by constructor | done]. }
    pose proof (parent_rank_lt h rank bound n p Hwf Hr Hn Hp) as Hlt.
    destruct (nodes h !! p) as [parent|] eqn:Hparent.
    2: { exists []. rewrite app_nil_r.
         split_and!; [done | by eapply ancestry_broken | done]. }
    assert (Hkey : sessionId parent = p) by (by apply (wf_key h Hwf)).
    destruct (IH parent (acc ++ [parent])) as (anc & Hloop & Hanc & Hall).
    { by rewrite Hkey. }
    { rewrite Hkey. lia. }
    exists (parent :: anc). split_and!.
    + rewrite Hloop. by rewrite <- app_assoc.
    + by eapply ancestry_step.
    + constructor; [rewrite Hkey; lia|].
      eapply Forall_impl; [exact Hall|]. intros a Ha; simpl in Ha.
      rewrite Hkey in Ha. lia.
Qed.

(** In a coherent state [getAncestors] returns, for every id: there is an
    amount of fuel from which on it yields the chain of parents, none of
    which is the starting node. *)
Lemma getAncestors_total h x :
  wf h →
  ∃ fuel0 anc,
    (∀ fuel, (fuel0 ≤ fuel)%nat →
       getAncestors fuel h x = Some anc
       ∧ getDepth fuel h x = Some (length anc))
    ∧ match nodes h !! x with
      | Some n => ancestry h n anc ∧ n ∉ anc
      | None => anc = []
      end.
Proof.
  intros Hwf. destruct (wf_ranked h Hwf) as (rank & bound & Hr).
  unfold getDepth, getAncestors.
  destruct (nodes h !! x) as [n|] eqn:Hn.
  - assert (Hkey : sessionId n = x) by (by apply (wf_key h Hwf)).
    destruct (ancestors_loop_ranked h rank bound Hwf Hr (rank x) n [])
      as (anc & Hloop & Hanc & Hall).
    { by rewrite Hkey. }
    { by rewrite Hkey. }
    exists (S (rank x)), anc. split.
    + intros fuel Hfuel.
      by rewrite (ancestors_loop_more _ fuel _ _ _ _ Hloop Hfuel).
    + split; [done|]. intros Hin.
      rewrite Forall_forall in Hall. specialize (Hall n Hin). simpl in Hall. lia.
  - exists 1%nat, []. split; [|done].
    intros fuel Hfuel. destruct fuel; [lia|]. done.
Qed.

(** A stored parent id that names no node ends the walk at once, in any
    state whatever. *)
Lemma getAncestors_broken_chain h x n p fuel :
  nodes h !! x = Some n → parentId n = Some p → nodes h !! p = None →
  getAncestors (S fuel) h x = Some [].
Proof.
  intros Hn Hp Hnone. unfold getAncestors. rewrite Hn. simpl.
  unfold truthy_parent. rewrite Hp.
  destruct (truthy_str p); [by rewrite Hnone | done].
Qed.

(** ** The traversal of the children index *)

Lemma elem_of_getChildren h x n :
  n ∈ getChildren h x
  ↔ ∃ ids c, childrenMap h !! x = Some ids ∧ c ∈ ids ∧ nodes h !! c = Some n.
Proof.
  unfold getChildren. destruct (childrenMap h !! x) as [ids|].
  - rewrite list_elem_of_omap. split.
    + intros (c & Hc & Hn). eauto.
    + intros (ids' & c & [= <-] & Hc & Hn). eauto.
  - split; [by intros ?%not_elem_of_nil | by intros (? & ? & ? & _)].
Qed.

Lemma descendants_loop_S fuel h acc queue :
  descendants_loop (S fuel) h acc queue
  = match queue with
    | [] => Some acc
    | node :: rest =>
        descendants_loop fuel h (acc ++ [node])
                         (rest ++ getChildren h (sessionId node))
    end.
Proof. reflexivity. Qed.

Lemma descendants_loop_more fuel fuel' h acc queue r :
  descendants_loop fuel h acc queue = Some r → (fuel ≤ fuel')%nat →
  descendants_loop fuel' h acc queue = Some r.
Proof.
  revert fuel' acc queue. induction fuel as [|fuel IH]; intros fuel' acc queue; [done|].
  intros H Hle. destruct fuel' as [|fuel']; [lia|].
  rewrite descendants_loop_S in *. destruct queue as [|n rest]; [done|].
  apply IH; [done | lia].
Qed.

(** What the loop returns holds the queue and is closed under
    [getChildren]. *)
Lemma descendants_loop_closed fuel h acc queue res :
  descendants_loop fuel h acc queue = Some res →
  ∃ new, res = acc ++ new
         ∧ (∀ n, n ∈ queue → n ∈ new)
         ∧ (∀ d c, d ∈ new → c ∈ getChildren h (sessionId d) → c ∈ new).
Proof.
  revert acc queue. induction fuel as [|fuel IH]; intros acc queue; [done|].
  rewrite descendants_loop_S. destruct queue as [|n rest].
  - intros [= <-]. exists []. rewrite app_nil_r. split_and!; [done | |].
    + by intros n ?%not_elem_of_nil.
    + by intros d c ?%not_elem_of_nil.
  - intros H. destruct (IH _ _ H) as (new & -> & Hq & Hclosed).
    exists (n :: new). split_and!.
    + by rewrite <- app_assoc.
    + intros m [->|Hm]%elem_of_cons; [left | right].
      apply Hq, elem_of_app. by left.
    + intros d c [->|Hd]%elem_of_cons Hc; right.
      * apply Hq, elem_of_app. by right.
      * by apply (Hclosed d c).
Qed.

Lemma sum_list_fmap_le {A} (f g : A → nat) (l : list A) :
  (∀ x, x ∈ l → (f x ≤ g x)%nat) →
  (sum_list (f <$> l) ≤ sum_list (g <$> l))%nat.
Proof.
  induction l as [|x l IH]; intros H; [done|].
  assert (f x ≤ g x)%nat by (apply H; left).
  assert (sum_list (f <$> l) ≤ sum_list (g <$> l))%nat
    by (apply IH; intros y Hy; apply H; by right).
  change (f x + sum_list (f <$> l) ≤ g x + sum_list (g <$> l))%nat.
  lia.
Qed.

Lemma tsize_pos h d x : (1 ≤ tsize h d x)%nat.
Proof. destruct d; simpl; lia. Qed.

Lemma tsize_mono h d d' x : (d ≤ d')%nat → (tsize h d x ≤ tsize h d' x)%nat.
Proof.
  revert d' x. induction d as [|d IH]; intros d' x Hle.
  - apply tsize_pos.
  - destruct d' as [|d']; [lia|]. simpl.
    apply le_n_S. rewrite !list_fmap_compose.
    apply sum_list_fmap_le. intros y _. apply IH. lia.
Qed.

Lemma weight_app h rank bound q1 q2 :
  weight h rank bound (q1 ++ q2)
  = (weight h rank bound q1 + weight h rank bound q2)%nat.
Proof. unfold weight. by rewrite fmap_app, sum_list_with_app. Qed.

Lemma weight_children h rank bound x :
  wf h → ranked h rank bound →
  (weight h rank bound (getChildren h x) < tsize h (bound - rank x) x)%nat.
Proof.
  intros Hwf [Hb Hr].
  assert (Hedge : ∀ n, n ∈ getChildren h x →
            (rank x < rank (sessionId n) ≤ bound)%nat).
  { intros n (ids & c & Hids & Hc & Hn)%elem_of_getChildren.
    rewrite (wf_key h Hwf c n Hn). split; [|apply Hb].
    apply (Hr x ids c); eauto. }
  destruct (bound - rank x)%nat as [|k] eqn:Hk.
  - destruct (getChildren h x) as [|n l] eqn:E; [unfold weight; simpl; lia|].
    assert (rank x < rank (sessionId n) ≤ bound)%nat by (apply Hedge; left).
    lia.
  - simpl. apply Nat.lt_succ_r. unfold weight.
    rewrite list_fmap_compose, <- list_fmap_compose.
    apply sum_list_fmap_le. intros n Hn. simpl.
    apply tsize_mono. specialize (Hedge n Hn). lia.
Qed.

Lemma descendants_loop_total h rank bound :
  wf h → ranked h rank bound →
  ∀ fuel acc queue,
    (weight h rank bound queue < fuel)%nat →
    is_Some (descendants_loop fuel h acc queue).
Proof.
  intros Hwf Hr. induction fuel as [|fuel IH]; intros acc queue Hw; [lia|].
  rewrite descendants_loop_S. destruct queue as [|n rest]; [eauto|].
  apply IH. rewrite weight_app.
  pose proof (weight_children h rank bound (sessionId n) Hwf Hr).
  assert (Hcons : weight h rank bound (n :: rest)
                  = (tsize h (bound - rank (sessionId n)) (sessionId n)
                     + weight h rank bound rest)%nat) by done.
  lia.
Qed.

(** In a coherent state [getDescendants] returns, for every id. *)
Lemma getDescendants_total h x :
  wf h →
  ∃ fuel0 ds, ∀ fuel, (fuel0 ≤ fuel)%nat → getDescendants fuel h x = Some ds.
Proof.
  intros Hwf. destruct (wf_ranked h Hwf) as (rank & bound & Hr).
  unfold getDescendants.
  set (fuel0 := S (weight h rank bound (getChildren h x))).
  destruct (descendants_loop_total h rank bound Hwf Hr fuel0 []
              (getChildren h x)) as [ds Hds]; [subst fuel0; lia|].
  exists fuel0, ds. intros fuel Hfuel.
  by apply (descendants_loop_more fuel0).
Qed.

(** ** Removal *)

Lemma delete_all_nodes ds h x :
  nodes (foldl (λ acc d, delete_node acc (sessionId d)) h ds) !! x
  = if decide (x ∈ sessionId <$> ds) then None else nodes h !! x.
Proof.
  revert h. induction ds as [|d ds IH]; intros h.
  - simpl. repeat case_decide; try done; by exfalso; eapply not_elem_of_nil.
  - cbn [foldl]. rewrite IH. rewrite fmap_cons. simpl nodes.
    destruct (decide (x = sessionId d)) as [->|Hne].
    + rewrite lookup_delete_eq.
      destruct (decide (sessionId d ∈ sessionId <$> ds));
        destruct (decide (sessionId d ∈ sessionId d :: (sessionId <$> ds)))
        as [|Hn]; try done; destruct Hn; left.
    + rewrite lookup_delete_ne by done.
      destruct (decide (x ∈ sessionId <$> ds)) as [Hin|Hin];
        destruct (decide (x ∈ sessionId d :: (sessionId <$> ds)))
        as [Hin'|Hin']; try done.
      * destruct Hin'. by right.
      * by apply elem_of_cons in Hin' as [?|?].
Qed.

Lemma delete_all_children ds h x :
  childrenMap (foldl (λ acc d, delete_node acc (sessionId d)) h ds) !! x
  = if decide (x ∈ sessionId <$> ds) then None else childrenMap h !! x.
Proof.
  revert h. induction ds as [|d ds IH]; intros h.
  - simpl. repeat case_decide; try done; by exfalso; eapply not_elem_of_nil.
  - cbn [foldl]. rewrite IH. rewrite fmap_cons. simpl childrenMap.
    destruct (decide (x = sessionId d)) as [->|Hne].
    + rewrite lookup_delete_eq.
      destruct (decide (sessionId d ∈ sessionId <$> ds));
        destruct (decide (sessionId d ∈ sessionId d :: (sessionId <$> ds)))
        as [|Hn]; try done; destruct Hn; left.
    + rewrite lookup_delete_ne by done.
      destruct (decide (x ∈ sessionId <$> ds)) as [Hin|Hin];
        destruct (decide (x ∈ sessionId d :: (sessionId <$> ds)))
        as [Hin'|Hin']; try done.
      * destruct Hin'. by right.
      * by apply elem_of_cons in Hin' as [?|?].
Qed.

Lemma unlink_nodes sid h : nodes (unlink_from_parent sid h) = nodes h.
Proof.
  unfold unlink_from_parent. destruct (nodes h !! sid) as [n|]; [|done].
  by destruct (truthy_parent n).
Qed.

(** [unlink_from_parent] changes at most one children set, from which it
    takes at most [sid]. *)
Lemma unlink_children sid h x :
  ∃ f : list string → list string,
    childrenMap (unlink_from_parent sid h) !! x = f <$> childrenMap h !! x
    ∧ (∀ ids y, y ∈ f ids → y ∈ ids)
    ∧ (∀ ids y, y ∈ ids → y ≠ sid → y ∈ f ids).
Proof.
  unfold unlink_from_parent.
  assert (Hid : ∃ f : list string → list string,
            childrenMap h !! x = f <$> childrenMap h !! x
            ∧ (∀ ids y, y ∈ f ids → y ∈ ids)
            ∧ (∀ ids y, y ∈ ids → y ≠ sid → y ∈ f ids)).
  { exists id. split_and!; [|done..]. by destruct (childrenMap h !! x). }
  destruct (nodes h !! sid) as [n|]; [|done].
  destruct (truthy_parent n) as [p|]; [|done]. simpl.
  destruct (decide (p = x)) as [->|Hne].
  - exists (set_delete sid). rewrite lookup_alter_eq. split_and!; [done | |].
    + intros ids y Hy. by apply elem_of_set_delete in Hy as [_ ?].
    + intros ids y Hy Hne. by apply elem_of_set_delete.
  - rewrite lookup_alter_ne by done. done.
Qed.

Lemma remove_nodes fuel sid h h' ds :
  getDescendants fuel h sid = Some ds → remove fuel sid h = Some h' →
  ∀ x, nodes h' !! x
       = if decide (x = sid ∨ x ∈ sessionId <$> ds) then None
         else nodes h !! x.
Proof.
  intros Hds. unfold remove. rewrite Hds. intros [= <-] x. simpl.
  rewrite unlink_nodes.
  destruct (decide (x = sid)) as [->|Hne].
  - rewrite lookup_delete_eq. rewrite decide_True; [done | by left].
  - rewrite lookup_delete_ne by done. rewrite delete_all_nodes.
    destruct (decide (x ∈ sessionId <$> ds)).
    + rewrite decide_True; [done | by right].
    + rewrite decide_False; [done | tauto].
Qed.

Lemma remove_children fuel sid h h' ds :
  getDescendants fuel h sid = Some ds → remove fuel sid h = Some h' →
  ∀ x, ∃ f : list string → list string,
    childrenMap h' !! x
    = (if decide (x = sid ∨ x ∈ sessionId <$> ds) then None
       else f <$> childrenMap h !! x)
    ∧ (∀ ids y, y ∈ f ids → y ∈ ids)
    ∧ (∀ ids y, y ∈ ids → y ≠ sid → y ∈ f ids).
Proof.
  intros Hds. unfold remove. rewrite Hds. intros [= <-] x. simpl.
  destruct (unlink_children sid
              (foldl (λ acc d, delete_node acc (sessionId d)) h ds) x)
    as (f & Hf & Hsub & Hkeep).
  exists f. split; [|done].
  destruct (decide (x = sid)) as [->|Hne].
  - rewrite lookup_delete_eq. rewrite decide_True; [done | by left].
  - rewrite lookup_delete_ne by done. rewrite Hf, delete_all_children.
    destruct (decide (x ∈ sessionId <$> ds)).
    + rewrite decide_True; [done | by right].
    + rewrite decide_False; [done | tauto].
Qed.

(** The ids that [remove] deletes are closed under the children index: a
    node whose index parent is deleted is deleted too. *)
Lemma removed_closed fuel sid h ds p ids c n :
  wf h → getDescendants fuel h sid = Some ds →
  p = sid ∨ p ∈ sessionId <$> ds →
  childrenMap h !! p = Some ids → c ∈ ids → nodes h !! c = Some n →
  c ∈ sessionId <$> ds.
Proof.
  intros Hwf Hds Hp Hids Hc Hn. unfold getDescendants in Hds.
  apply descendants_loop_closed in Hds as (new & Heq & Hq & Hclosed).
  simpl in Heq. subst new.
  assert (Hchild : n ∈ getChildren h p) by (apply elem_of_getChildren; eauto).
  rewrite <- (wf_key h Hwf c n Hn). apply list_elem_of_fmap_2.
  destruct Hp as [->|Hp].
  - by apply Hq.
  - apply list_elem_of_fmap in Hp as (d & -> & Hd). by apply (Hclosed d).
Qed.

Lemma wf_remove fuel sid h h' :
  wf h → remove fuel sid h = Some h' → wf h'.
Proof.
  intros Hwf Hrm.
  destruct (getDescendants fuel h sid) as [ds|] eqn:Hds;
    [|by unfold remove in Hrm; rewrite Hds in Hrm].
  pose proof (remove_nodes fuel sid h h' ds Hds Hrm) as Hn.
  pose proof (remove_children fuel sid h h' ds Hds Hrm) as Hc.
  split.
  - intros x n. rewrite Hn. case_decide; [done|]. apply (wf_key h Hwf).
  - intros p ids. destruct (Hc p) as (f & -> & _). rewrite Hn.
    case_decide; [done|].
    destruct (childrenMap h !! p) as [ids0|] eqn:E; [|done].
    intros _. by apply (wf_index h Hwf p ids0).
  - intros x n p. rewrite Hn. case_decide as Hx; [done|]. intros Hx' Hpar.
    destruct (wf_parent h Hwf x n p Hx' Hpar) as [Hlive (ids & Hids & Hin)].
    assert (Hp : ¬ (p = sid ∨ p ∈ sessionId <$> ds)).
    { intros Hp. apply Hx. right.
      by apply (removed_closed fuel sid h ds p ids x n). }
    rewrite Hn, decide_False by done. split; [done|].
    destruct (Hc p) as (f & -> & _ & Hkeep). rewrite decide_False by done.
    rewrite Hids. simpl. eexists. split; [done|].
    apply Hkeep; [done|]. intros ->. apply Hx. by left.
  - destruct (wf_ranked h Hwf) as (rank & bound & Hb & Hr).
    exists rank, bound. split; [done|].
    intros p ids c. destruct (Hc p) as (f & -> & Hsub & _).
    case_decide; [done|].
    destruct (childrenMap h !! p) as [ids0|] eqn:E; [|done].
    simpl. intros [= <-] Hin. rewrite Hn. case_decide; [by intros [? ?]|].
    apply (Hr p ids0 c); eauto.
Qed.

Lemma reachable_fresh_wf h : reachable_fresh h → wf h.
Proof.
  induction 1.
  - apply wf_empty.
  - by apply wf_addRoot.
  - by apply wf_addChild.
  - by apply wf_markCompleted.
  - by eapply wf_remove.
  - apply wf_empty.
Qed.

Lemma built_fresh_reachable h : built_fresh h → reachable_fresh h.
Proof. induction 1; by constructor. Qed.

Lemma built_fresh_built h : built_fresh h → built h.
Proof. induction 1; by constructor. Qed.

Lemma reachable_fresh_reachable h : reachable_fresh h → reachable h.
Proof. induction 1; try by constructor. by eapply reach_remove. Qed.

(** Removing an id that has no node changes nothing. *)
Lemma remove_unknown fuel sid h :
  wf h → nodes h !! sid = None → remove (S fuel) sid h = Some h.
Proof.
  intros Hwf Hn.
  assert (Hc : childrenMap h !! sid = None).
  { destruct (childrenMap h !! sid) as [ids|] eqn:E; [|done].
    apply (wf_index h Hwf) in E. rewrite Hn in E. by destruct E. }
  unfold remove, getDescendants, getChildren. rewrite Hc. simpl.
  unfold unlink_from_parent. rewrite Hn. unfold delete_node.
  rewrite !delete_id by done. by destruct h.
Qed.

(** ** The claims *)

(** C1, amended.  In every state built by [addRoot] and [addChild] calls in
    which each [addChild] names a child id that has no node yet and that
    differs from the parent id, for every session id x that is present:
    [getAncestors(x)] returns, its result does not contain the node of x,
    and [getDepth(x)] returns the length of that result. *)
Theorem built_fresh_forest h x n :
  built_fresh h →
  nodes h !! x = Some n →
  ∃ fuel0 ancestors,
    (∀ fuel, (fuel0 ≤ fuel)%nat →
       getAncestors fuel h x = Some ancestors
       ∧ getDepth fuel h x = Some (length ancestors))
    ∧ n ∉ ancestors.
Proof.
  intros Hb Hn.
  destruct (getAncestors_total h x) as (fuel0 & anc & Hfuel & Hres).
  { by apply reachable_fresh_wf, built_fresh_reachable. }
  rewrite Hn in Hres. destruct Hres as [_ Hnot].
  by exists fuel0, anc.
Qed.

Example example_tree_ancestors :
  (map sessionId <$> getAncestors 3 example_tree "child")
  = Some ["parent"; "grandparent"]%string
  ∧ getDepth 3 example_tree "child" = Some 2%nat.
Proof. by vm_compute. Qed.

Lemma built_fresh_forest_witness :
  ∃ fuel0 ancestors,
    (∀ fuel, (fuel0 ≤ fuel)%nat →
       getAncestors fuel example_tree "child" = Some ancestors
       ∧ getDepth fuel example_tree "child" = Some (length ancestors))
    ∧ mkNode "child" (Some "parent"%string) (Some "toolu_1"%string)
             None None 3 None ∉ ancestors.
Proof.
  apply (built_fresh_forest example_tree "child").
  - unfold example_tree.
    apply bf_addChild; [apply bf_addChild; [apply bf_addRoot, bf_empty | |] | |];
      (vm_compute; reflexivity) || discriminate.
  - vm_compute. reflexivity.
Defined.

Example remove_example :
  ∃ h', remove 2 "parent" example_tree = Some h'
        ∧ has h' "parent" = false ∧ has h' "child" = false
        ∧ has h' "grandparent" = true
        ∧ getChildren h' "grandparent" = [].
Proof. eexists. split; [by vm_compute|]. by vm_compute. Qed.

(** ** Further properties of the tracker *)

(** X10.  [addRoot] never touches a session that already has a node,
    whether a root or a child, and registering a root twice is the same as
    registering it once, with the timestamp of the first call. *)
Theorem addRoot_idempotent now1 now2 x h :
  (has h x = true → addRoot now1 x h = h)
  ∧ has (addRoot now1 x h) x = true
  ∧ addRoot now2 x (addRoot now1 x h) = addRoot now1 x h.
Proof.
  assert (Hhas : has (addRoot now1 x h) x = true)
    by apply has_true, addRoot_has.
  split_and!.
  - intros H. unfold addRoot. by rewrite H.
  - done.
  - unfold addRoot at 1. by rewrite Hhas.
Qed.

Lemma addRoot_idempotent_witness : addRoot 5 "child" example_tree = example_tree.
Proof.
  refine (proj1 (addRoot_idempotent 5 6 "child" example_tree) _).
  vm_compute. reflexivity.
Defined.

(** X11.  After [addChild(parent, child, options)], in any state: the child
    has the node just written, the parent has a node, [getChildren(parent)]
    lists the node of the child, and [getParent(child)] is the node of the
    parent, unless the parent id is the empty string, in which case
    [getParent(child)] is undefined. *)
Theorem addChild_lookup nowRoot now p c o h :
  let h' := addChild nowRoot now p c o h in
  let child := mkNode c (Some p) (Some (o_toolUseId o)) (o_description o)
                      (o_subagentType o) now None in
  getNode h' c = Some child
  ∧ has h' p = true
  ∧ child ∈ getChildren h' p
  ∧ (truthy_str p = true →
       getParent h' c = getNode h' p ∧ is_Some (getParent h' c))
  ∧ (truthy_str p = false → getParent h' c = None).
Proof.
  intros h' child.
  assert (Hc : nodes h' !! c = Some child) by apply addChild_node.
  assert (Hp : is_Some (nodes h' !! p)).
  { destruct (decide (c = p)) as [<-|Hne]; [by rewrite Hc|].
    unfold h', addChild; simpl. rewrite lookup_insert_ne by done.
    destruct (has h p) eqn:E; [by apply has_true | apply addRoot_has]. }
  split_and!.
  - done.
  - by apply has_true.
  - apply elem_of_getChildren.
    assert (Hids : ∃ ids, childrenMap h' !! p = Some ids ∧ c ∈ ids).
    { unfold h', addChild; simpl. rewrite lookup_alter_eq.
      set (h1 := if has h p then h else addRoot nowRoot p h).
      destruct (childrenMap h1 !! p) as [ids|] eqn:E.
      - rewrite E. simpl. eexists. split; [done|].
        apply elem_of_set_add. by left.
      - rewrite lookup_insert_eq. simpl. eexists. split; [done|].
        apply elem_of_set_add. by left. }
    destruct Hids as (ids & Hids & Hin). eauto.
  - intros Ht. unfold getParent, getNode. rewrite Hc.
    unfold truthy_parent; simpl. by rewrite Ht.
  - intros Ht. unfold getParent. rewrite Hc.
    unfold truthy_parent; simpl. by rewrite Ht.
Qed.

Lemma addChild_lookup_witness :
  getParent (addChild 0 9 "child" "leaf" opts example_tree) "leaf"
  = getNode (addChild 0 9 "child" "leaf" opts example_tree) "child".
Proof.
  refine (proj1 (proj1 (proj2 (proj2 (proj2
            (addChild_lookup 0 9 "child" "leaf" opts example_tree)))) _)).
  reflexivity.
Defined.

(** X12.  [markCompleted] on an unknown id changes nothing.  On a known id
    it sets the completion time of that node and nothing else: the other
    fields of the node, the other nodes and the children index stay as they
    were.  A second call replaces the completion time of the first. *)
Theorem markCompleted_spec now x h :
  (getNode h x = None → markCompleted now x h = h)
  ∧ (∀ n, getNode h x = Some n →
       getNode (markCompleted now x h) x = Some (completed now n))
  ∧ (∀ y, y ≠ x → getNode (markCompleted now x h) y = getNode h y)
  ∧ childrenMap (markCompleted now x h) = childrenMap h
  ∧ (∀ now', markCompleted now' x (markCompleted now x h)
             = markCompleted now' x h).
Proof.
  unfold getNode, markCompleted. split_and!.
  - intros Hn. destruct h as [ns cm]; simpl in *. f_equal.
    apply map_eq. intros y. destruct (decide (x = y)) as [->|Hne].
    + by rewrite lookup_alter_eq, Hn.
    + by rewrite lookup_alter_ne.
  - intros n Hn; simpl. by rewrite lookup_alter_eq, Hn.
  - intros y Hne; simpl. by rewrite lookup_alter_ne.
  - done.
  - intros now'; simpl. f_equal. apply map_eq. intros y.
    destruct (decide (x = y)) as [->|Hne].
    + rewrite !lookup_alter_eq. by destruct (nodes h !! y).
    + by rewrite !lookup_alter_ne.
Qed.

Lemma markCompleted_spec_witness :
  markCompleted 7 "nobody" example_tree = example_tree.
Proof.
  refine (proj1 (markCompleted_spec 7 "nobody" example_tree) _).
  vm_compute. reflexivity.
Defined.

Lemma ancestors_loop_acc fuel h acc cur :
  ancestors_loop fuel h acc cur = (acc ++.) <$> ancestors_loop fuel h [] cur.
Proof.
  revert acc cur. induction fuel as [|fuel IH]; intros acc cur; [done|].
  rewrite !ancestors_loop_S. unfold ancestors_step.
  destruct cur as [c|]; [|by simpl; rewrite app_nil_r].
  destruct (truthy_parent c) as [p|]; [|by simpl; rewrite app_nil_r].
  destruct (nodes h !! p) as [parent|]; [|by simpl; rewrite app_nil_r].
  rewrite (IH (acc ++ [parent])), (IH ([] ++ [parent])).
  destruct (ancestors_loop fuel h [] (Some parent)) as [r|]; simpl; [|done].
  by rewrite <- app_assoc.
Qed.

(** X13.  In any state, for a node whose non-empty parent id names a node:
    the ancestors are the parent followed by the ancestors of the parent,
    and the depth is one more than the depth of the parent (the walk from
    the child needs one more iteration than the walk from the parent). *)
Theorem getAncestors_parent fuel h x n p pn :
  nodes h !! x = Some n → truthy_parent n = Some p →
  nodes h !! p = Some pn →
  getAncestors (S fuel) h x = (pn ::.) <$> getAncestors fuel h p
  ∧ getDepth (S fuel) h x = S <$> getDepth fuel h p.
Proof.
  intros Hn Hp Hpn. unfold getDepth, getAncestors.
  rewrite Hn, Hpn, ancestors_loop_S. unfold ancestors_step.
  rewrite Hp, Hpn, ancestors_loop_acc.
  destruct (ancestors_loop fuel h [] (Some pn)); done.
Qed.

Lemma getAncestors_parent_witness :
  getDepth 3 example_tree "child" = S <$> getDepth 2 example_tree "parent".
Proof.
  refine (proj2 (getAncestors_parent 2 example_tree "child"
            (mkNode "child" (Some "parent"%string) (Some "toolu_1"%string)
                    None None 3 None)
            "parent"
            (mkNode "parent" (Some "grandparent"%string)
                    (Some "toolu_1"%string) None None 2 None) _ _ _));
    vm_compute; reflexivity.
Defined.

Lemma truthy_parent_Some n p : truthy_parent n = Some p → parentId n = Some p.
Proof.
  unfold truthy_parent. destruct (parentId n) as [q|]; [|done].
  destruct (truthy_str q); [|done]. by intros [= ->].
Qed.

Lemma linked_empty : linked empty.
Proof.
  split.
  - intros x n H. simpl in H. by rewrite ?lookup_empty in H.
  - intros x n p H. simpl in H. by rewrite ?lookup_empty in H.
Qed.

Lemma linked_addRoot now x h : linked h → linked (addRoot now x h).
Proof.
  intros [Hkey Hpar]. unfold addRoot.
  destruct (has h x) eqn:Hx; [done|]. split; simpl.
  - intros y n. destruct (decide (x = y)) as [->|Hne].
    + rewrite lookup_insert_eq. by intros [= <-].
    + rewrite lookup_insert_ne by done. apply Hkey.
  - intros y n p. destruct (decide (x = y)) as [->|Hne].
    + rewrite lookup_insert_eq. by intros [= <-].
    + rewrite lookup_insert_ne by done. intros Hy Hp.
      destruct (Hpar y n p Hy Hp) as [Hlive Hids]. split; [|done].
      destruct (decide (x = p)) as [->|Hne'].
      * rewrite lookup_insert_eq. eauto.
      * by rewrite lookup_insert_ne.
Qed.

Lemma linked_addChild nowRoot now p c o h :
  linked h → linked (addChild nowRoot now p c o h).
Proof.
  intros Hl. unfold addChild.
  set (h1 := if has h p then h else addRoot nowRoot p h).
  assert (Hl1 : linked h1).
  { subst h1. destruct (has h p); [done | by apply linked_addRoot]. }
  assert (Hp1 : is_Some (nodes h1 !! p)).
  { subst h1. destruct (has h p) eqn:E; [by apply has_true | apply addRoot_has]. }
  destruct Hl1 as [Hkey Hpar].
  set (cm2 := match childrenMap h1 !! p with
              | Some _ => childrenMap h1
              | None => <[p := []]> (childrenMap h1)
              end).
  assert (Hgrow : ∀ q ids y, childrenMap h1 !! q = Some ids → y ∈ ids →
            ∃ ids', alter (set_add c) p cm2 !! q = Some ids' ∧ y ∈ ids').
  { intros q ids y Hq Hy. destruct (decide (q = p)) as [->|Hne].
    - rewrite lookup_alter_eq. subst cm2. rewrite Hq; simpl. rewrite Hq; simpl.
      eexists. split; [done|]. apply elem_of_set_add. by right.
    - rewrite lookup_alter_ne by done. subst cm2.
      destruct (childrenMap h1 !! p); [eauto|].
      rewrite lookup_insert_ne by done. eauto. }
  assert (Hnew : ∃ ids', alter (set_add c) p cm2 !! p = Some ids' ∧ c ∈ ids').
  { rewrite lookup_alter_eq. subst cm2.
    destruct (childrenMap h1 !! p) as [ids|] eqn:E.
    - rewrite E; simpl. eexists. split; [done|]. apply elem_of_set_add. by left.
    - rewrite lookup_insert_eq; simpl. eexists. split; [done|].
      apply elem_of_set_add. by left. }
  assert (Hlive : ∀ q, is_Some (nodes h1 !! q) →
            is_Some (<[c := mkNode c (Some p) (Some (o_toolUseId o))
                              (o_description o) (o_subagentType o) now None]>
                       (nodes h1) !! q)).
  { intros q Hq. destruct (decide (c = q)) as [->|Hne].
    - rewrite lookup_insert_eq. eauto.
    - by rewrite lookup_insert_ne. }
  split; simpl.
  - intros y n. destruct (decide (c = y)) as [->|Hne].
    + rewrite lookup_insert_eq. by intros [= <-].
    + rewrite lookup_insert_ne by done. apply Hkey.
  - intros y n q. destruct (decide (c = y)) as [->|Hne].
    + rewrite lookup_insert_eq. intros [= <-]; simpl. intros [= <-].
      split; [by apply Hlive | done].
    + rewrite lookup_insert_ne by done. intros Hy Hq.
      destruct (Hpar y n q Hy Hq) as [Hq1 (ids & Hids & Hin)].
      split; [by apply Hlive | by apply (Hgrow q ids)].
Qed.

Lemma linked_markCompleted now x h : linked h → linked (markCompleted now x h).
Proof.
  intros [Hkey Hpar].
  assert (Hlk : ∀ y n, nodes (markCompleted now x h) !! y = Some n →
            ∃ n0, nodes h !! y = Some n0 ∧ sessionId n = sessionId n0
                  ∧ parentId n = parentId n0).
  { intros y n. unfold markCompleted; simpl.
    destruct (decide (x = y)) as [->|Hne].
    - rewrite lookup_alter_eq. destruct (nodes h !! y) as [n0|]; [|done].
      simpl. intros [= <-]. eauto.
    - rewrite lookup_alter_ne by done. eauto. }
  assert (Hlive : ∀ y, is_Some (nodes h !! y) →
            is_Some (nodes (markCompleted now x h) !! y)).
  { intros y [n0 Hy]. unfold markCompleted; simpl.
    destruct (decide (x = y)) as [->|Hne].
    - rewrite lookup_alter_eq, Hy. simpl. eauto.
    - rewrite lookup_alter_ne by done. eauto. }
  split.
  - intros y n Hy. destruct (Hlk y n Hy) as (n0 & Hn0 & -> & _). by apply Hkey.
  - intros y n p Hy Hp. destruct (Hlk y n Hy) as (n0 & Hn0 & _ & Hpp).
    rewrite Hpp in Hp. destruct (Hpar y n0 p Hn0 Hp) as [Hl Hids].
    split; [by apply Hlive | done].
Qed.

Lemma linked_remove fuel sid h h' :
  linked h → remove fuel sid h = Some h' → linked h'.
Proof.
  intros [Hkey Hpar] Hrm.
  destruct (getDescendants fuel h sid) as [ds|] eqn:Hds;
    [|by unfold remove in Hrm; rewrite Hds in Hrm].
  pose proof (remove_nodes fuel sid h h' ds Hds Hrm) as Hn.
  pose proof (remove_children fuel sid h h' ds Hds Hrm) as Hc.
  assert (Hclosed : ∀ p ids c n,
            p = sid ∨ p ∈ sessionId <$> ds →
            childrenMap h !! p = Some ids → c ∈ ids → nodes h !! c = Some n →
            c ∈ sessionId <$> ds).
  { intros p ids c n Hp Hids Hin Hnc. unfold getDescendants in Hds.
    apply descendants_loop_closed in Hds as (new & Heq & Hq & Hcl).
    simpl in Heq. subst new.
    assert (Hchild : n ∈ getChildren h p) by (apply elem_of_getChildren; eauto).
    rewrite <- (Hkey c n Hnc). apply list_elem_of_fmap_2.
    destruct Hp as [->|Hp]; [by apply Hq|].
    apply list_elem_of_fmap in Hp as (d & -> & Hd). by apply (Hcl d). }
  split.
  - intros x n. rewrite Hn. case_decide; [done|]. apply Hkey.
  - intros x n p. rewrite Hn. case_decide as Hx; [done|]. intros Hx' Hp.
    destruct (Hpar x n p Hx' Hp) as [Hlive (ids & Hids & Hin)].
    assert (Hkeep : ¬ (p = sid ∨ p ∈ sessionId <$> ds)).
    { intros Hp'. apply Hx. right. by apply (Hclosed p ids x n). }
    rewrite Hn, decide_False by done. split; [done|].
    destruct (Hc p) as (f & -> & _ & Hf). rewrite decide_False by done.
    rewrite Hids. simpl. eexists. split; [done|].
    apply Hf; [done|]. intros ->. apply Hx. by left.
Qed.

Lemma reachable_linked h : reachable h → linked h.
Proof.
  induction 1.
  - apply linked_empty.
  - by apply linked_addRoot.
  - by apply linked_addChild.
  - by apply linked_markCompleted.
  - by eapply linked_remove.
  - apply linked_empty.
Qed.

(** X14.  In every reachable state, those with cycles included: a node is
    stored under its own id, and a node with a parent id has its parent,
    which lists it among its [getChildren].  A stored parent id therefore
    never names a missing node, and the exit of [getAncestors] for a missing
    parent is never taken. *)
Theorem reachable_parent_present h x n :
  reachable h →
  getNode h x = Some n →
  sessionId n = x
  ∧ (∀ p, parentId n = Some p →
       is_Some (getNode h p) ∧ n ∈ getChildren h p).
Proof.
  intros [Hkey Hpar]%reachable_linked Hn. unfold getNode in *.
  split; [by apply Hkey|]. intros p Hp.
  destruct (Hpar x n p Hn Hp) as [Hlive (ids & Hids & Hin)].
  split; [done|]. apply elem_of_getChildren. eauto.
Qed.

Lemma reachable_parent_present_witness :
  sessionId (mkNode "a" (Some "b"%string) (Some "toolu_1"%string)
                    None None 2 None) = "a"%string
  ∧ (∀ p, parentId (mkNode "a" (Some "b"%string) (Some "toolu_1"%string)
                           None None 2 None) = Some p →
       is_Some (getNode (addChild 0 2 "b" "a" opts
                           (addChild 0 1 "a" "b" opts empty)) p)
       ∧ mkNode "a" (Some "b"%string) (Some "toolu_1"%string) None None 2 None
         ∈ getChildren (addChild 0 2 "b" "a" opts
                          (addChild 0 1 "a" "b" opts empty)) p).
Proof.
  apply (reachable_parent_present
           (addChild 0 2 "b" "a" opts (addChild 0 1 "a" "b" opts empty)) "a").
  - repeat constructor.
  - vm_compute. reflexivity.
Defined.

(** What a finished walk returns is the chain of parents, in any state. *)
Lemma ancestors_loop_ancestry h fuel n anc :
  ancestors_loop fuel h [] (Some n) = Some anc → ancestry h n anc.
Proof.
  revert n anc. induction fuel as [|fuel IH]; intros n anc; [done|].
  rewrite ancestors_loop_S. unfold ancestors_step.
  destruct (truthy_parent n) as [p|] eqn:Hp;
    [|intros [= <-]; by constructor].
  destruct (nodes h !! p) as [parent|] eqn:Hparent;
    [|intros [= <-]; by eapply ancestry_broken].
  rewrite ancestors_loop_acc.
  destruct (ancestors_loop fuel h [] (Some parent)) as [rest|] eqn:E; [|done].
  simpl. intros [= <-]. eapply ancestry_step; [done | done |]. by apply IH.
Qed.

(** Whatever is closed under [getChildren] and holds the children of an
    ancestor of a node holds the node. *)
Lemma ancestry_closed h n anc a (S : AgentNode → Prop) :
  linked h → nodes h !! sessionId n = Some n →
  ancestry h n anc → a ∈ anc →
  (∀ c, c ∈ getChildren h (sessionId a) → S c) →
  (∀ d c, S d → c ∈ getChildren h (sessionId d) → S c) →
  S n.
Proof.
  intros [Hkey Hpar] Hn Hanc. revert Hn.
  induction Hanc as [c Hc|c p Hc Hp|c p parent rest Hc Hp Hrest IH];
    intros Hn Ha Hchildren Hclosed;
    [by apply not_elem_of_nil in Ha | by apply not_elem_of_nil in Ha |].
  assert (Hk : sessionId parent = p) by (by apply Hkey).
  assert (Hchild : c ∈ getChildren h (sessionId parent)).
  { rewrite Hk. apply truthy_parent_Some in Hc.
    destruct (Hpar _ c p Hn Hc) as [_ (ids & Hids & Hin)].
    apply elem_of_getChildren. eauto. }
  apply elem_of_cons in Ha as [->|Ha].
  - by apply Hchildren.
  - apply (Hclosed parent); [|done].
    apply IH; [by rewrite Hk | done | done | done].
Qed.

(** X15.  In every reachable state, ancestors and descendants mirror each
    other: whenever [getAncestors(x)] returns and lists a node a, and
    [getDescendants] of a returns, it lists the node of x. *)
Theorem ancestors_descendants h x n a fuel fuel' ancestors descendants :
  reachable h →
  getNode h x = Some n →
  getAncestors fuel h x = Some ancestors → a ∈ ancestors →
  getDescendants fuel' h (sessionId a) = Some descendants →
  n ∈ descendants.
Proof.
  intros Hl%reachable_linked Hn Hanc Ha Hdesc. unfold getNode in Hn.
  unfold getAncestors in Hanc. rewrite Hn in Hanc.
  apply ancestors_loop_ancestry in Hanc.
  unfold getDescendants in Hdesc.
  apply descendants_loop_closed in Hdesc as (new & Heq & Hq & Hclosed).
  simpl in Heq. subst new.
  apply (ancestry_closed h n ancestors a (λ m, m ∈ descendants)); try done.
  destruct Hl as [Hkey _]. by rewrite (Hkey x n Hn).
Qed.

Lemma ancestors_descendants_witness :
  mkNode "child" (Some "parent"%string) (Some "toolu_1"%string)
         None None 3 None
  ∈ [mkNode "parent" (Some "grandparent"%string) (Some "toolu_1"%string)
            None None 2 None;
     mkNode "child" (Some "parent"%string) (Some "toolu_1"%string)
            None None 3 None].
Proof.
  apply (ancestors_descendants example_tree "child" _
           (mkNode "grandparent" None None None None 1 None) 3 3
           [mkNode "parent" (Some "grandparent"%string)
                   (Some "toolu_1"%string) None None 2 None;
            mkNode "grandparent" None None None None 1 None]).
  - repeat constructor.
  - vm_compute. reflexivity.
  - vm_compute. reflexivity.
  - right. left.
  - vm_compute. reflexivity.
Defined.

(** X16.  In every state reached with children added once, removing a
    session a second time changes nothing. *)
Theorem remove_twice h sid fuel fuel' h' :
  reachable_fresh h →
  remove fuel sid h = Some h' →
  remove (S fuel') sid h' = Some h'.
Proof.
  intros Hr Hrm. apply remove_unknown.
  - apply reachable_fresh_wf. by eapply rf_remove.
  - destruct (getDescendants fuel h sid) as [ds|] eqn:Hds;
      [|by unfold remove in Hrm; rewrite Hds in Hrm].
    rewrite (remove_nodes fuel sid h h' ds Hds Hrm).
    rewrite decide_True; [done | by left].
Qed.

Lemma remove_twice_witness :
  remove 1 "parent" (mkH (<["grandparent"%string :=
                             mkNode "grandparent" None None None None 1 None]> ∅)
                         (<["grandparent"%string := []]> ∅))
  = Some (mkH (<["grandparent"%string :=
                 mkNode "grandparent" None None None None 1 None]> ∅)
              (<["grandparent"%string := []]> ∅)).
Proof.
  apply (remove_twice example_tree "parent" 2 0).
  - unfold example_tree.
    apply rf_addChild; [apply rf_addChild; [apply rf_addRoot, rf_empty | |] | |];
      (vm_compute; reflexivity) || discriminate.
  - vm_compute. reflexivity.
Defined.

(** What the traversal returns beyond [acc] satisfies every property that
    holds of the queue and is passed on to children. *)
Lemma descendants_loop_sound (P : AgentNode → Prop) fuel h acc queue res :
  (∀ d c, P d → c ∈ getChildren h (sessionId d) → P c) →
  Forall P queue →
  descendants_loop fuel h acc queue = Some res →
  ∃ new, res = acc ++ new ∧ Forall P new.
Proof.
  intros Hstep. revert acc queue.
  induction fuel as [|fuel IH]; intros acc queue Hq; [done|].
  rewrite descendants_loop_S. destruct queue as [|n rest].
  - intros [= <-]. exists []. by rewrite app_nil_r.
  - apply Forall_cons in Hq as [Hn Hrest]. intros H.
    destruct (IH (acc ++ [n]) (rest ++ getChildren h (sessionId n)))
      as (new & -> & Hnew); [|done|].
    + apply Forall_app. split; [done|]. apply Forall_forall.
      intros c Hc. by apply (Hstep n).
    + exists (n :: new). split; [by rewrite <- app_assoc | by constructor].
Qed.

(** X17.  In every state reached with children added once,
    [getDescendants(x)] lists only nodes that exist, each under its own id,
    and never a node with the id x itself. *)
Theorem getDescendants_sound h x fuel descendants d :
  reachable_fresh h →
  getDescendants fuel h x = Some descendants → d ∈ descendants →
  getNode h (sessionId d) = Some d ∧ sessionId d ≠ x.
Proof.
  intros Hwf%reachable_fresh_wf Hds Hd. unfold getNode.
  destruct (wf_ranked h Hwf) as (rank & bound & Hb & Hr).
  set (P := λ m : AgentNode,
         nodes h !! sessionId m = Some m ∧ (rank x < rank (sessionId m))%nat).
  assert (Hedge : ∀ y m, m ∈ getChildren h y →
            nodes h !! sessionId m = Some m ∧ (rank y < rank (sessionId m))%nat).
  { intros y m (ids & c & Hids & Hc & Hm)%elem_of_getChildren.
    rewrite (wf_key h Hwf c m Hm). split; [done|].
    apply (Hr y ids c); eauto. }
  unfold getDescendants in Hds.
  apply (descendants_loop_sound P) in Hds as (new & Heq & Hall).
  - simpl in Heq. subst new. rewrite Forall_forall in Hall.
    destruct (Hall d Hd) as [H1 H2]. split; [done|]. intros E.
    rewrite E in H2. lia.
  - intros m c [Hm Hlt] Hc. destruct (Hedge _ _ Hc) as [H1 H2].
    split; [done | lia].
  - apply Forall_forall. intros m Hm. by apply Hedge.
Qed.

Lemma getDescendants_sound_witness :
  getNode example_tree
    (sessionId (mkNode "child" (Some "parent"%string) (Some "toolu_1"%string)
                       None None 3 None))
  = Some (mkNode "child" (Some "parent"%string) (Some "toolu_1"%string)
                 None None 3 None)
  ∧ sessionId (mkNode "child" (Some "parent"%string) (Some "toolu_1"%string)
                      None None 3 None) ≠ "grandparent"%string.
Proof.
  apply (getDescendants_sound example_tree "grandparent" 3
           [mkNode "parent" (Some "grandparent"%string) (Some "toolu_1"%string)
                   None None 2 None;
            mkNode "child" (Some "parent"%string) (Some "toolu_1"%string)
                   None None 3 None]).
  - unfold example_tree.
    apply rf_addChild; [apply rf_addChild; [apply rf_addRoot, rf_empty | |] | |];
      (vm_compute; reflexivity) || discriminate.
  - vm_compute. reflexivity.
  - right. left.
Defined.

(** ** Ancestors and removal against the data model *)

Lemma reachable_clean_fresh h : reachable_clean h → reachable_fresh h.
Proof. induction 1; try by constructor. by eapply rf_remove. Qed.

Lemma reachable_clean_wf h : reachable_clean h → wf h.
Proof. intros H. by apply reachable_fresh_wf, reachable_clean_fresh. Qed.

Lemma truthy_parent_parentId h x n :
  no_empty_parent h → nodes h !! x = Some n → truthy_parent n = parentId n.
Proof.
  intros Hne Hn. unfold truthy_parent.
  destruct (parentId n) as [p|] eqn:Hp; [|done].
  by rewrite (Hne x n p Hn Hp).
Qed.

(** The walk returns any finite chain of parents, in any state without
    empty parent ids. *)
Lemma ancestors_loop_chain h n anc :
  no_empty_parent h →
  parent_chain h n anc →
  ∀ x fuel acc, nodes h !! x = Some n → (length anc < fuel)%nat →
                ancestors_loop fuel h acc (Some n) = Some (acc ++ anc).
Proof.
  intros Hne. induction 1 as [c Hc|c p Hc Hp|c p parent rest Hc Hp _ IH];
    intros x fuel acc Hx Hfuel;
    (destruct fuel as [|fuel]; [simpl in Hfuel; lia|]);
    rewrite ancestors_loop_S; unfold ancestors_step;
    rewrite (truthy_parent_parentId h x c Hne Hx), Hc.
  - by rewrite app_nil_r.
  - by rewrite Hp, app_nil_r.
  - rewrite Hp. rewrite (IH p fuel (acc ++ [parent]) Hp).
    + by rewrite <- app_assoc.
    + simpl in Hfuel. lia.
Qed.

Lemma ancestry_parent_chain h x n anc :
  no_empty_parent h → nodes h !! x = Some n →
  ancestry h n anc → parent_chain h n anc.
Proof.
  intros Hne Hn Hanc. revert x Hn.
  induction Hanc as [c Hc|c p Hc Hp|c p parent rest Hc Hp _ IH]; intros x Hx;
    rewrite (truthy_parent_parentId h x c Hne Hx) in Hc.
  - by apply chain_root.
  - by eapply chain_missing.
  - eapply chain_step; [done | done |]. by apply (IH p).
Qed.

Lemma no_empty_parent_empty : no_empty_parent empty.
Proof. intros x n p H. simpl in H. by rewrite ?lookup_empty in H. Qed.

Lemma no_empty_parent_addRoot now x h :
  no_empty_parent h → no_empty_parent (addRoot now x h).
Proof.
  intros Hne. unfold addRoot. destruct (has h x); [done|].
  intros y n p; simpl. destruct (decide (x = y)) as [->|Hxy].
  - rewrite lookup_insert_eq. by intros [= <-].
  - rewrite lookup_insert_ne by done. apply Hne.
Qed.

Lemma no_empty_parent_addChild nowRoot now p c o h :
  no_empty_parent h → truthy_str p = true →
  no_empty_parent (addChild nowRoot now p c o h).
Proof.
  intros Hne Hp. unfold addChild.
  set (h1 := if has h p then h else addRoot nowRoot p h).
  assert (H1 : no_empty_parent h1).
  { subst h1. destruct (has h p); [done | by apply no_empty_parent_addRoot]. }
  intros y n q; simpl. destruct (decide (c = y)) as [->|Hcy].
  - rewrite lookup_insert_eq. intros [= <-]; simpl. by intros [= <-].
  - rewrite lookup_insert_ne by done. apply H1.
Qed.

Lemma no_empty_parent_markCompleted now x h :
  no_empty_parent h → no_empty_parent (markCompleted now x h).
Proof.
  intros Hne y n p. unfold markCompleted; simpl.
  destruct (decide (x = y)) as [->|Hxy].
  - rewrite lookup_alter_eq. destruct (nodes h !! y) as [n0|] eqn:E; [|done].
    simpl. intros [= <-]; simpl. by apply (Hne y n0).
  - rewrite lookup_alter_ne by done. apply Hne.
Qed.

Lemma no_empty_parent_remove fuel sid h h' :
  no_empty_parent h → remove fuel sid h = Some h' → no_empty_parent h'.
Proof.
  intros Hne Hrm.
  destruct (getDescendants fuel h sid) as [ds|] eqn:Hds;
    [|by unfold remove in Hrm; rewrite Hds in Hrm].
  intros y n p. rewrite (remove_nodes fuel sid h h' ds Hds Hrm).
  case_decide; [done|]. apply Hne.
Qed.

Lemma reachable_clean_no_empty_parent h :
  reachable_clean h → no_empty_parent h.
Proof.
  induction 1.
  - apply no_empty_parent_empty.
  - by apply no_empty_parent_addRoot.
  - by apply no_empty_parent_addChild.
  - by apply no_empty_parent_markCompleted.
  - by eapply no_empty_parent_remove.
  - apply no_empty_parent_empty.
Qed.

(** C7, on the code.  After [addChild("a", "b")] and [addChild("b", "a")]
    the two sessions are each other's parent and the walk of
    [getAncestors("a")] never ends.  After the single call
    [addChild("", "c")] the session [c] has the parent id [""], the node of
    [""] exists and lists [c] among its children, and yet
    [getAncestors("c")] returns the empty list: the test of the loop takes
    the empty parent id for none. *)
Lemma getAncestors_counterexamples :
  (reachable (addChild 0 2 "b" "a" opts (addChild 0 1 "a" "b" opts empty))
   ∧ ¬ (∃ fuel ancestors,
          getAncestors fuel
            (addChild 0 2 "b" "a" opts (addChild 0 1 "a" "b" opts empty)) "a"
          = Some ancestors))
  ∧ (reachable (addChild 0 1 "" "c" opts empty)
     ∧ (parentId <$> nodes (addChild 0 1 "" "c" opts empty) !! "c")
       = Some (Some ""%string)
     ∧ nodes (addChild 0 1 "" "c" opts empty) !! ""
       = Some (mkNode "" None None None None 0 None)
     ∧ parent_chain (addChild 0 1 "" "c" opts empty)
         (mkNode "c" (Some ""%string) (Some "toolu_1"%string) None None 1 None)
         [mkNode "" None None None None 0 None]
     ∧ ∀ fuel, getAncestors (S fuel) (addChild 0 1 "" "c" opts empty) "c"
               = Some []).
Proof.
  split.
  - destruct getAncestors_diverges_on_cycle as (Hr & _ & _ & _ & Hno).
    by split.
  - split_and!.
    + repeat constructor.
    + by vm_compute.
    + by vm_compute.
    + eapply chain_step; [done | by vm_compute | by apply chain_root].
    + intros fuel. by vm_compute.
Qed.

(** C7, amended.  In every state reached through [addRoot], [addChild] with
    a non-empty parent id and a child id that has no node yet and that
    differs from the parent id, [markCompleted], [remove] and [clear],
    [getAncestors] returns for every session id.  For an id without node
    the result is empty; otherwise it is the chain of parents of the node,
    nearest first, the node itself excluded.  In any state whatever in which
    no parent id is empty, whenever the chain of parents of a node is
    finite, because it reaches a root or because it reaches a parent id that
    names no node, at whatever distance from the start, [getAncestors]
    returns that chain, with no error. *)
Theorem getAncestors_terminates h x :
  reachable_clean h →
  (∃ fuel0 ancestors,
     (∀ fuel, (fuel0 ≤ fuel)%nat → getAncestors fuel h x = Some ancestors)
     ∧ match nodes h !! x with
       | Some n => parent_chain h n ancestors ∧ n ∉ ancestors
       | None => ancestors = []
       end)
  ∧ (∀ h0 y m chain fuel,
       no_empty_parent h0 →
       nodes h0 !! y = Some m → parent_chain h0 m chain →
       (length chain < fuel)%nat →
       getAncestors fuel h0 y = Some chain).
Proof.
  intros Hr. split.
  - destruct (getAncestors_total h x) as (fuel0 & anc & Hfuel & Hres).
    { by apply reachable_clean_wf. }
    exists fuel0, anc. split; [intros fuel Hle; by apply Hfuel|].
    destruct (nodes h !! x) as [n|] eqn:Hn; [|done].
    destruct Hres as [Hanc Hnot]. split; [|done].
    apply (ancestry_parent_chain h x); [|done|done].
    by apply reachable_clean_no_empty_parent.
  - intros h0 y m chain fuel Hne Hm Hchain Hfuel.
    unfold getAncestors. rewrite Hm.
    by rewrite (ancestors_loop_chain h0 m chain Hne Hchain y fuel []).
Qed.

Lemma getAncestors_terminates_witness :
  ∃ fuel0 ancestors,
    (∀ fuel, (fuel0 ≤ fuel)%nat →
       getAncestors fuel example_tree "child" = Some ancestors)
    ∧ match nodes example_tree !! "child" with
      | Some n => parent_chain example_tree n ancestors ∧ n ∉ ancestors
      | None => ancestors = []
      end.
Proof.
  refine (proj1 (getAncestors_terminates example_tree "child" _)).
  unfold example_tree.
  apply rc_addChild; [apply rc_addChild; [apply rc_addRoot, rc_empty | | |] | | |];
    (vm_compute; reflexivity) || discriminate.
Defined.

(** A chain broken two steps from the start: [y] has the parent [p], whose
    parent id [q] names no node. *)
Example getAncestors_broken_far :
  let np := mkNode "p" (Some "q"%string) None None None 0 None in
  let ny := mkNode "y" (Some "p"%string) None None None 0 None in
  let h := mkH (<["y"%string := ny]> (<["p"%string := np]> ∅)) ∅ in
  parent_chain h ny [np] ∧ getAncestors 2 h "y" = Some [np].
Proof.
  intros np ny h. split; [|by vm_compute].
  eapply chain_step; [done | by vm_compute |].
  eapply chain_missing; [done | by vm_compute].
Qed.

(** *** The children index of the clean states *)

Lemma exact_index_empty : exact_index empty.
Proof. intros p ids c H. simpl in H. by rewrite ?lookup_empty in H. Qed.

Lemma exact_index_addRoot now x h :
  exact_index h → exact_index (addRoot now x h).
Proof.
  intros He. unfold addRoot. destruct (has h x) eqn:Hx; [done|].
  apply has_false in Hx. intros p ids c Hp Hc; simpl in *.
  destruct (He p ids c Hp Hc) as (n & Hn & Hpar).
  exists n. split; [|done]. rewrite lookup_insert_ne; [done|].
  intros ->. congruence.
Qed.

Lemma exact_index_addChild nowRoot now p c o h :
  exact_index h → nodes h !! c = None → c ≠ p →
  exact_index (addChild nowRoot now p c o h).
Proof.
  intros He Hc Hcp. unfold addChild.
  set (h1 := if has h p then h else addRoot nowRoot p h).
  assert (He1 : exact_index h1).
  { subst h1. destruct (has h p); [done | by apply exact_index_addRoot]. }
  assert (Hc1 : nodes h1 !! c = None).
  { subst h1. destruct (has h p); [done | by rewrite addRoot_lookup_ne]. }
  intros q ids y; simpl.
  assert (Hold : ∀ ids0, childrenMap h1 !! q = Some ids0 → y ∈ ids0 →
            ∃ n, <[c := mkNode c (Some p) (Some (o_toolUseId o))
                          (o_description o) (o_subagentType o) now None]>
                   (nodes h1) !! y = Some n ∧ parentId n = Some q).
  { intros ids0 Hq Hy. destruct (He1 q ids0 y Hq Hy) as (n & Hn & Hpar).
    exists n. split; [|done]. rewrite lookup_insert_ne; [done|].
    intros ->. congruence. }
  destruct (decide (q = p)) as [->|Hqp].
  - rewrite lookup_alter_eq.
    destruct (childrenMap h1 !! p) as [ids0|] eqn:E.
    + rewrite E; simpl. intros [= <-] [->|Hy]%elem_of_set_add.
      * rewrite lookup_insert_eq. eauto.
      * by apply (Hold ids0).
    + rewrite lookup_insert_eq; simpl. intros [= <-] [->|Hy]%elem_of_set_add.
      * rewrite lookup_insert_eq. eauto.
      * by apply not_elem_of_nil in Hy.
  - rewrite lookup_alter_ne by done.
    destruct (childrenMap h1 !! p) as [ids0|] eqn:E.
    + intros Hq Hy. by apply (Hold ids).
    + rewrite lookup_insert_ne by done. intros Hq Hy. by apply (Hold ids).
Qed.

Lemma exact_index_markCompleted now x h :
  exact_index h → exact_index (markCompleted now x h).
Proof.
  intros He p ids c Hp Hc. simpl in Hp.
  destruct (He p ids c Hp Hc) as (n & Hn & Hpar).
  unfold markCompleted; simpl. destruct (decide (x = c)) as [->|Hxc].
  - rewrite lookup_alter_eq, Hn. simpl. eauto.
  - rewrite lookup_alter_ne by done. eauto.
Qed.

(** In a coherent state the traversal lists existing nodes, none of which
    has the id it started from. *)
Lemma descendants_not_self h x fuel ds d :
  wf h → getDescendants fuel h x = Some ds → d ∈ ds →
  nodes h !! sessionId d = Some d ∧ sessionId d ≠ x.
Proof.
  intros Hwf Hds Hd.
  destruct (wf_ranked h Hwf) as (rank & bound & Hb & Hr).
  set (P := λ m : AgentNode,
         nodes h !! sessionId m = Some m ∧ (rank x < rank (sessionId m))%nat).
  assert (Hedge : ∀ y m, m ∈ getChildren h y →
            nodes h !! sessionId m = Some m ∧ (rank y < rank (sessionId m))%nat).
  { intros y m (ids & c & Hids & Hc & Hm)%elem_of_getChildren.
    rewrite (wf_key h Hwf c m Hm). split; [done|].
    apply (Hr y ids c); eauto. }
  unfold getDescendants in Hds.
  apply (descendants_loop_sound P) in Hds as (new & Heq & Hall).
  - simpl in Heq. subst new. rewrite Forall_forall in Hall.
    destruct (Hall d Hd) as [H1 H2]. split; [done|]. intros E.
    rewrite E in H2. lia.
  - intros m c [Hm Hlt] Hc. destruct (Hedge _ _ Hc) as [H1 H2].
    split; [done | lia].
  - apply Forall_forall. intros m Hm. by apply Hedge.
Qed.

(** The children sets that [remove] leaves: those of the sessions it keeps,
    the removed session taken out of the set of its parent. *)
Lemma remove_children_lookup fuel sid h h' ds q ids' :
  wf h → getDescendants fuel h sid = Some ds → remove fuel sid h = Some h' →
  childrenMap h' !! q = Some ids' →
  q ≠ sid ∧ (q ∉ sessionId <$> ds)
  ∧ ∃ ids0, childrenMap h !! q = Some ids0
            ∧ (∀ y, y ∈ ids' → y ∈ ids0)
            ∧ (∀ n, nodes h !! sid = Some n → truthy_parent n = Some q →
                    sid ∉ ids').
Proof.
  intros Hwf Hds. unfold remove. rewrite Hds. intros [= <-]. simpl.
  set (h1 := foldl (λ acc d, delete_node acc (sessionId d)) h ds).
  assert (Hself : sid ∉ sessionId <$> ds).
  { intros (d & Hd1 & Hd2)%list_elem_of_fmap.
    destruct (descendants_not_self h sid fuel ds d Hwf Hds Hd2) as [_ Hne].
    by rewrite <- Hd1 in Hne. }
  assert (Hsid : nodes h1 !! sid = nodes h !! sid).
  { subst h1. rewrite delete_all_nodes. by rewrite decide_False. }
  assert (Hcm1 : ∀ ids1, childrenMap h1 !! q = Some ids1 →
            (q ∉ sessionId <$> ds) ∧ childrenMap h !! q = Some ids1).
  { intros ids1. subst h1. rewrite delete_all_children. by case_decide. }
  destruct (decide (q = sid)) as [->|Hq]; [by rewrite lookup_delete_eq|].
  rewrite lookup_delete_ne by done.
  unfold unlink_from_parent. rewrite Hsid.
  destruct (nodes h !! sid) as [n|] eqn:Hn.
  2: { intros [Hnot Hq0]%Hcm1. split_and!; [done | done |].
       exists ids'. split_and!; [done | done | done]. }
  destruct (truthy_parent n) as [p0|] eqn:Hp0.
  2: { intros [Hnot Hq0]%Hcm1. split_and!; [done | done |].
       exists ids'. split_and!; [done | done |].
       intros n' [= <-] Hq'. congruence. }
  simpl. destruct (decide (p0 = q)) as [->|Hne].
  - rewrite lookup_alter_eq.
    destruct (childrenMap h1 !! q) as [ids1|] eqn:E; [|done].
    simpl. intros [= <-]. destruct (Hcm1 ids1 eq_refl) as [Hnot Hq0].
    split_and!; [done | done |]. exists ids1. split_and!; [done | |].
    + intros y Hy. by apply elem_of_set_delete in Hy as [_ ?].
    + intros _ _ _ Hin. by apply elem_of_set_delete in Hin as [? _].
  - rewrite lookup_alter_ne by done. intros [Hnot Hq0]%Hcm1.
    split_and!; [done | done |]. exists ids'. split_and!; [done | done |].
    intros n' [= <-] Hq'. congruence.
Qed.

(** In a state with an exact index the traversal lists descendants only. *)
Lemma descendants_descends h sid fuel ds d :
  wf h → exact_index h →
  getDescendants fuel h sid = Some ds → d ∈ ds →
  descends h sid (sessionId d).
Proof.
  intros Hwf He Hds Hd.
  assert (Hedge : ∀ y m, m ∈ getChildren h y →
            nodes h !! sessionId m = Some m ∧ parentId m = Some y).
  { intros y m (ids & c & Hids & Hc & Hm)%elem_of_getChildren.
    rewrite (wf_key h Hwf c m Hm).
    destruct (He y ids c Hids Hc) as (n & Hn & Hpar).
    split; [done | congruence]. }
  unfold getDescendants in Hds.
  apply (descendants_loop_sound (λ m, descends h sid (sessionId m)))
    in Hds as (new & Heq & Hall).
  - simpl in Heq. subst new. rewrite Forall_forall in Hall. by apply Hall.
  - intros m c Hm Hc. destruct (Hedge _ _ Hc) as [H1 H2].
    by eapply descends_step.
  - apply Forall_forall. intros m Hm. destruct (Hedge _ _ Hm) as [H1 H2].
    by eapply descends_child.
Qed.

(** In a coherent state the traversal lists every descendant. *)
Lemma descends_descendants h sid fuel ds x :
  wf h → getDescendants fuel h sid = Some ds →
  descends h sid x → x ∈ sessionId <$> ds.
Proof.
  intros Hwf Hds. induction 1 as [x n Hn Hp|x n p Hn Hp _ IH].
  - destruct (wf_parent h Hwf x n sid Hn Hp) as [_ (ids & Hids & Hin)].
    apply (removed_closed fuel sid h ds sid ids x n); try done. by left.
  - destruct (wf_parent h Hwf x n p Hn Hp) as [_ (ids & Hids & Hin)].
    apply (removed_closed fuel sid h ds p ids x n); try done. by right.
Qed.

Lemma exact_index_remove fuel sid h h' :
  wf h → no_empty_parent h → exact_index h →
  remove fuel sid h = Some h' → exact_index h'.
Proof.
  intros Hwf Hne He Hrm.
  destruct (getDescendants fuel h sid) as [ds|] eqn:Hds;
    [|by unfold remove in Hrm; rewrite Hds in Hrm].
  intros q ids' c Hq Hc.
  destruct (remove_children_lookup fuel sid h h' ds q ids' Hwf Hds Hrm Hq)
    as (Hqs & Hqd & ids0 & Hids0 & Hsub & Hunlinked).
  destruct (He q ids0 c Hids0 (Hsub c Hc)) as (n & Hn & Hpar).
  exists n. split; [|done].
  rewrite (remove_nodes fuel sid h h' ds Hds Hrm).
  rewrite decide_False; [done|]. intros [->|Hin].
  - apply (Hunlinked n Hn); [|done].
    unfold truthy_parent. rewrite Hpar. by rewrite (Hne sid n q Hn Hpar).
  - apply list_elem_of_fmap in Hin as (d & -> & Hd).
    pose proof (descendants_descends h sid fuel ds d Hwf He Hds Hd) as Hdesc.
    inversion Hdesc as [x n' Hn' Hp'|x n' p Hn' Hp' Hp'']; subst.
    + rewrite Hn in Hn'. injection Hn' as <-. congruence.
    + rewrite Hn in Hn'. injection Hn' as <-.
      assert (p = q) by congruence. subst p.
      apply Hqd. by apply (descends_descendants h sid fuel ds q).
Qed.

Lemma reachable_clean_exact h : reachable_clean h → exact_index h.
Proof.
  induction 1 as [|now sid h Hr IH|nowRoot now p c o h Hr IH
                  |now sid h Hr IH|fuel sid h h' Hr IH Hrm|h Hr IH].
  - apply exact_index_empty.
  - by apply exact_index_addRoot.
  - by apply exact_index_addChild.
  - by apply exact_index_markCompleted.
  - apply (exact_index_remove fuel sid h h'); try done.
    + by apply reachable_clean_wf.
    + by apply reachable_clean_no_empty_parent.
  - apply exact_index_empty.
Qed.

(** *** Removal *)

Example stale_state_reachable : reachable_fresh stale_state.
Proof.
  unfold stale_state. apply rf_addChild.
  - apply (rf_remove 2 "c" (addChild 0 1 "" "c" opts empty)).
    + apply rf_addChild; [apply rf_empty | by vm_compute | done].
    + by vm_compute.
  - by vm_compute.
  - done.
Qed.

Example stale_state_no_descendant : ¬ descends stale_state "" "c".
Proof.
  assert (Hc : nodes stale_state !! "c"
               = Some (mkNode "c" (Some "q"%string) (Some "toolu_1"%string)
                              None None 3 None)) by (by vm_compute).
  assert (Hq : nodes stale_state !! "q"
               = Some (mkNode "q" None None None None 0 None))
    by (by vm_compute).
  intros H. inversion H as [x n Hn Hp|x n p Hn Hp Hd]; subst;
    rewrite Hc in Hn; injection Hn as <-; simpl in Hp; [done|].
  injection Hp as <-.
  inversion Hd as [x n Hn Hp|x n p Hn Hp _]; subst;
    rewrite Hq in Hn; injection Hn as <-; done.
Qed.

(** C3, on the code.  In the reachable state left by
    [addChild("a", "a", ...)] neither [getDescendants("a")] nor
    [remove("a")] returns.  In the state reached by [addChild("", "c")],
    [remove("c")], [addChild("q", "c")], where every child was added while
    it had no node, the children set of the empty-string session still lists
    [c] (the test of [remove] took the empty parent id for none and did not
    unlink it): there [remove("")] deletes the node of [c], which is a child
    of [q] and no descendant of the empty-string session. *)
Lemma remove_counterexamples :
  (reachable (addChild 0 1 "a" "a" opts empty)
   ∧ ¬ (∃ fuel h', remove fuel "a" (addChild 0 1 "a" "a" opts empty)
                   = Some h'))
  ∧ (reachable_fresh stale_state
     ∧ (parentId <$> nodes stale_state !! "c") = Some (Some "q"%string)
     ∧ ¬ descends stale_state "" "c"
     ∧ ∃ h', remove 2 "" stale_state = Some h'
             ∧ has stale_state "c" = true ∧ has h' "c" = false).
Proof.
  split.
  - destruct remove_diverges_on_cycle as (Hr & _ & _ & Hno). by split.
  - split_and!.
    + apply stale_state_reachable.
    + by vm_compute.
    + apply stale_state_no_descendant.
    + eexists. split; [by vm_compute|]. by vm_compute.
Qed.

(** C3, amended.  In every state reached through [addRoot], [addChild] with
    a non-empty parent id and a child id that has no node yet and that
    differs from the parent id, [markCompleted], [remove] and [clear], and
    for every session id n, [remove(n)] returns, and afterwards: [has(n)] is
    false; [has(d)] is false for every descendant d of n, that is every
    session whose chain of parent ids led to n before the call; no
    [getChildren] result, that of the former parent of n included, holds a
    node with id n; every node that was neither n nor a descendant of n is
    unchanged; and when n had no node the state is unchanged. *)
Theorem remove_spec h sid :
  reachable_clean h →
  ∃ fuel0 h',
    (∀ fuel, (fuel0 ≤ fuel)%nat → remove fuel sid h = Some h')
    ∧ has h' sid = false
    ∧ (∀ d, descends h sid d → has h' d = false)
    ∧ (∀ p c, c ∈ getChildren h' p → sessionId c ≠ sid)
    ∧ (∀ x, x ≠ sid → ¬ descends h sid x → nodes h' !! x = nodes h !! x)
    ∧ (has h sid = false → h' = h).
Proof.
  intros Hr. pose proof (reachable_clean_wf h Hr) as Hwf.
  pose proof (reachable_clean_exact h Hr) as He.
  destruct (getDescendants_total h sid Hwf) as (fuel0 & ds & Hds).
  destruct (remove (S fuel0) sid h) as [h'|] eqn:Hrm.
  2: { unfold remove in Hrm. rewrite Hds in Hrm by lia. done. }
  assert (Hds1 : getDescendants (S fuel0) h sid = Some ds) by (apply Hds; lia).
  pose proof (remove_nodes _ sid h h' ds Hds1 Hrm) as Hn.
  pose proof (wf_remove _ sid h h' Hwf Hrm) as Hwf'.
  exists fuel0, h'. split_and!.
  - intros fuel Hle. unfold remove in *. rewrite Hds by done.
    by rewrite Hds1 in Hrm.
  - apply has_false. rewrite Hn. rewrite decide_True; [done | by left].
  - intros d Hd. apply has_false. rewrite Hn. rewrite decide_True; [done|].
    right. by apply (descends_descendants h sid (S fuel0) ds).
  - intros p c (ids & cid & _ & _ & Hc)%elem_of_getChildren.
    rewrite (wf_key h' Hwf' cid c Hc). intros ->.
    rewrite Hn in Hc. rewrite decide_True in Hc; [done | by left].
  - intros x Hx Hnot. rewrite Hn. rewrite decide_False; [done|].
    intros [?|Hin]; [done|]. apply Hnot.
    apply list_elem_of_fmap in Hin as (d & -> & Hd).
    by apply (descendants_descends h sid (S fuel0) ds).
  - intros Hno%has_false.
    pose proof (remove_unknown fuel0 sid h Hwf Hno) as Hsame.
    congruence.
Qed.

Lemma remove_spec_witness :
  ∃ fuel0 h',
    (∀ fuel, (fuel0 ≤ fuel)%nat → remove fuel "parent" example_tree = Some h')
    ∧ has h' "parent" = false
    ∧ (∀ d, descends example_tree "parent" d → has h' d = false)
    ∧ (∀ p c, c ∈ getChildren h' p → sessionId c ≠ "parent"%string)
    ∧ (∀ x, x ≠ "parent"%string → ¬ descends example_tree "parent" x →
         nodes h' !! x = nodes example_tree !! x)
    ∧ (has example_tree "parent" = false → h' = example_tree).
Proof.
  apply (remove_spec example_tree "parent").
  unfold example_tree.
  apply rc_addChild; [apply rc_addChild; [apply rc_addRoot, rc_empty | | |] | | |];
    (vm_compute; reflexivity) || discriminate.
Defined.

Example descends_example :
  descends example_tree "grandparent" "child"
  ∧ ¬ descends example_tree "child" "grandparent".
Proof.
  assert (Hc : nodes example_tree !! "child"
               = Some (mkNode "child" (Some "parent"%string)
                              (Some "toolu_1"%string) None None 3 None))
    by (by vm_compute).
  assert (Hp : nodes example_tree !! "parent"
               = Some (mkNode "parent" (Some "grandparent"%string)
                              (Some "toolu_1"%string) None None 2 None))
    by (by vm_compute).
  assert (Hg : nodes example_tree !! "grandparent"
               = Some (mkNode "grandparent" None None None None 1 None))
    by (by vm_compute).
  split.
  - eapply descends_step; [exact Hc | done |].
    eapply descends_child; [exact Hp | done].
  - intros H. inversion H as [x n Hn Hpar|x n p Hn Hpar _]; subst;
      rewrite Hg in Hn; injection Hn as <-; done.
Qed.

End HierarchyFacts.
